(** * Interactive 3D block scene ([script.js], class [BlockScene])

    A shallow embedding of the scene's generation, per-frame update and
    pointer handlers, and the laws the specification states about them.

    Numbers.  A JavaScript number is read as an exact rational ([Q]); NaN
    and signed zeros are outside the model.  Rounding is modelled where it
    moves a result onto a bound that the exact value stays away from: the
    size of a block, [r * 0.5 + 0.5], is rounded as binary64 rounds it, and
    reaches 1 for the largest draw.  The other results are exact.
    [Math.random()] is a cursor into a fixed sequence of draws; the laws that
    need the range of a draw assume [0 <= r < 1] for every draw, which is
    what the language guarantees for [Math.random()].

    Objects.  The blocks are the children of [blockGroup], in the order they
    were added; a reference to a block ([lastIntersected], the [object] of a
    ray hit) is its index in that list.  Blocks are never removed, so an
    index names the same block for the whole session. *)

From Stdlib Require Import QArith Qround Lqa ZArith Lia.
From stdpp Require Import base list.

Local Open Scope Q_scope.

(** ** The vector types of the rendering library *)

Module Vector2.
Record t : Type := mk { x : Q; y : Q }.
(** [new THREE.Vector2()] *)
Definition zero : t := mk 0 0.
End Vector2.

Module Vector3.
Record t : Type := mk { x : Q; y : Q; z : Q }.

(** [new THREE.Vector3()] *)
Definition zero : t := mk 0 0 0.

(** [v.set(a, b, c)] overwrites the three components. *)
Definition set (_ : t) (a b c : Q) : t := mk a b c.

(** [v.add(w)]: componentwise sum. *)
Definition add (v w : t) : t := mk (x v + x w) (y v + y w) (z v + z w).

(** [v.lengthSq()] = x*x + y*y + z*z; [v.length()] is its square root. *)
Definition lengthSq (v : t) : Q := x v * x v + y v * y v + z v * z v.

(** [v.length() > c] for a constant [c >= 0].  The square root is not a
    rational operation; for [c >= 0] the test [sqrt s > c] is the test
    [s > c * c], which is the form used here. *)
Definition length_gt (v : t) (c : Q) : bool := negb (Qle_bool (lengthSq v) (c * c)).

(** Componentwise equality of values (two fractions that denote the same
    number are the same coordinate). *)
Definition eqv (v w : t) : Prop := x v == x w /\ y v == y w /\ z v == z w.

(** Every component lies in the half-open interval [lo, hi). *)
Definition within (lo hi : Q) (v : t) : Prop :=
  (lo <= x v /\ x v < hi) /\ (lo <= y v /\ y v < hi) /\ (lo <= z v /\ z v < hi).

(** Every component lies in the closed interval [lo, hi]. *)
Definition bounded (lo hi : Q) (v : t) : Prop :=
  (lo <= x v /\ x v <= hi) /\ (lo <= y v /\ y v <= hi) /\ (lo <= z v /\ z v <= hi).
End Vector3.

(** The Euler angles of [object.rotation]. *)
Module Euler.
Record t : Type := mk { x : Q; y : Q; z : Q }.
Definition zero : t := mk 0 0 0.
End Euler.

(** ** Rounding *)

(** The integer nearest to [x], a tie going to the even one. *)
Definition round_half_even (x : Q) : Z :=
  let n := Qfloor x in
  match Qcompare (x - inject_Z n) 0.5 with
  | Lt => n
  | Gt => (n + 1)%Z
  | Eq => if Z.even n then n else (n + 1)%Z
  end.

(** 2^53 *)
Definition two53 : Q := 9007199254740992.

(** The binary64 number nearest to [x] for [0.5 <= x <= 1], ties to even.
    The doubles from 0.5 up to 1 are the multiples of 2^-53 in that range
    (1 included), and an even multiple is a double with an even significand,
    so this is the rounding of an addition whose exact result lies there. *)
Definition round_below_one (x : Q) : Q := inject_Z (round_half_even (x * two53)) / two53.

(** The largest double below 1, which [Math.random()] can return. *)
Definition largest_draw : Q := 9007199254740991 / 9007199254740992.

(** ** Scene objects *)

(** A block mesh.  [color] is the value the source hands to the material:
    [None] is JavaScript's [undefined] (a palette index out of range).
    [scale] starts at (1, 1, 1), the library's default for a new mesh. *)
Record Block : Type := mkBlock {
  position : Vector3.t;
  size : Q;
  color : option Z;
  scale : Vector3.t;
  castShadow : bool;
  receiveShadow : bool
}.

(** [block.scale.set(a, b, c)] *)
Definition set_scale (blk : Block) (a b c : Q) : Block :=
  mkBlock (position blk) (size blk) (color blk) (Vector3.set (scale blk) a b c)
          (castShadow blk) (receiveShadow blk).

(** [block.material.color.set(c)] *)
Definition set_color (b : Block) (c : option Z) : Block :=
  mkBlock (position b) (size b) c (scale b) (castShadow b) (receiveShadow b).

(** A particle mesh with the [velocity] property the source attaches to it. *)
Record Particle : Type := mkParticle {
  p_position : Vector3.t;
  velocity : Vector3.t
}.

(** [blockGroup]: its rotation and its children. *)
Record Group : Type := mkGroup {
  rotation : Euler.t;
  children : list Block
}.

(** One hit of [raycaster.intersectObjects]: the hits come nearest first. *)
Record Intersection : Type := mkIntersection {
  distance : Q;
  object : nat
}.

(** [event.clientX], [event.clientY] *)
Record MouseEvent : Type := mkMouseEvent { clientX : Q; clientY : Q }.

(** [window.innerWidth], [window.innerHeight] at the time of an event. *)
Record Window : Type := mkWindow { innerWidth : Q; innerHeight : Q }.

(** ** The ambient random source *)

Record Random : Type := mkRandom {
  draws : nat -> Q;
  cursor : nat
}.

(** [Math.random()]: the draw under the cursor; the cursor moves on. *)
Definition next (g : Random) : Q * Random :=
  (draws g (cursor g), mkRandom (draws g) (S (cursor g))).

(** Every draw is in [0, 1). *)
Definition unit_draws (g : Random) : Prop :=
  forall i : nat, 0 <= draws g i /\ draws g i < 1.

(** [a[i]] for an index computed as a number: [undefined] outside the array. *)
Definition index {A : Type} (a : list A) (i : Z) : option A :=
  if (i <? 0)%Z then None else a !! Z.to_nat i.

(** [Math.floor(r * n)] for an array length [n]. *)
Definition floor_scaled (r : Q) (n : nat) : Z := Qfloor (r * inject_Z (Z.of_nat n)).

(** The palette of the constructor: blue, green, white. *)
Definition palette : list Z := [0x1e90ff; 0x00ff7f; 0xffffff]%Z.

(** ** The scene state *)

Section Model.
Context {Cam : Type}.

(** Calls into the host and the rendering library, in the order they were
    made.  [Render] carries the scene graph and the camera the renderer is
    given, as they are at the time of the call. *)
Inductive Call : Type :=
| RequestAnimationFrame
| ControlsUpdate
| Render (g : Group) (ps : list Particle) (c : Cam).

(** The fields of a [BlockScene], with the ambient random source and the log
    of library calls.  [camera] stands for [this.camera] together with
    [this.controls], as [init] builds them; [particles] is [this.particles],
    which holds the same objects, in the same order, as [particleGroup]. *)
Record State : Type := mkState {
  random : Random;
  camera : Cam;
  mouse : Vector2.t;
  lastIntersected : option nat;
  blockGroup : Group;
  particles : list Particle;
  colors : list Z;
  blockCount : nat;
  particleCount : nat;
  clusterRadius : Q;
  calls : list Call
}.

Definition with_random (g : Random) (s : State) : State :=
  mkState g (camera s) (mouse s) (lastIntersected s) (blockGroup s) (particles s)
          (colors s) (blockCount s) (particleCount s) (clusterRadius s) (calls s).

Definition with_camera (c : Cam) (s : State) : State :=
  mkState (random s) c (mouse s) (lastIntersected s) (blockGroup s) (particles s)
          (colors s) (blockCount s) (particleCount s) (clusterRadius s) (calls s).

Definition with_mouse (m : Vector2.t) (s : State) : State :=
  mkState (random s) (camera s) m (lastIntersected s) (blockGroup s) (particles s)
          (colors s) (blockCount s) (particleCount s) (clusterRadius s) (calls s).

Definition with_lastIntersected (l : option nat) (s : State) : State :=
  mkState (random s) (camera s) (mouse s) l (blockGroup s) (particles s)
          (colors s) (blockCount s) (particleCount s) (clusterRadius s) (calls s).

Definition with_blockGroup (g : Group) (s : State) : State :=
  mkState (random s) (camera s) (mouse s) (lastIntersected s) g (particles s)
          (colors s) (blockCount s) (particleCount s) (clusterRadius s) (calls s).

Definition with_particles (ps : list Particle) (s : State) : State :=
  mkState (random s) (camera s) (mouse s) (lastIntersected s) (blockGroup s) ps
          (colors s) (blockCount s) (particleCount s) (clusterRadius s) (calls s).

Definition with_calls (cs : list Call) (s : State) : State :=
  mkState (random s) (camera s) (mouse s) (lastIntersected s) (blockGroup s) (particles s)
          (colors s) (blockCount s) (particleCount s) (clusterRadius s) cs.

(** A method body: it reads and writes the scene and returns a value. *)
Definition M (A : Type) : Type := State -> A * State.

Definition ret {A : Type} (a : A) : M A := fun s => (a, s).

Definition bind {A B : Type} (m : M A) (k : A -> M B) : M B :=
  fun s => let (a, s') := m s in k a s'.

Definition gets {A : Type} (f : State -> A) : M A := fun s => (f s, s).

Definition modify (f : State -> State) : M unit := fun s => (tt, f s).

(** The state a method leaves behind. *)
Definition exec {A : Type} (m : M A) (s : State) : State := snd (m s).

End Model.

Arguments Call : clear implicits.
Arguments State : clear implicits.
Arguments M : clear implicits.

Notation "x <- m ;; k" := (bind m (fun x => k))
  (at level 100, m at next level, right associativity).
Notation "m ;;; k" := (bind m (fun _ => k))
  (at level 100, right associativity).

(** The collaborators of the scene that live in the rendering library:
    [controls.update()], which moves the camera, and the ray query
    [raycaster.setFromCamera(mouse, camera)] followed by
    [raycaster.intersectObjects(blockGroup.children)], which reads the scene
    and returns the hits nearest first. *)
Class Library (Cam : Type) : Type := {
  controls_update : Cam -> Cam;
  intersectObjects : State Cam -> list Intersection
}.

(** ** The methods of [BlockScene] *)

Section Methods.
Context {Cam : Type}.

(** [Math.random()] inside a method. *)
Definition Math_random : M Cam Q :=
  fun s => let (r, g) := next (random s) in (r, with_random g s).

(** [for (let i = 0; i < n; i++) body] for a body that reads neither [i] nor
    the field the bound [n] comes from. *)
Fixpoint for_loop (n : nat) (body : M Cam unit) : M Cam unit :=
  match n with
  | O => ret tt
  | S n' => body ;;; for_loop n' body
  end.

(** [new BlockScene()], with the random source of the page and the camera
    and controls that [init] installs before any other method runs. *)
Definition constructor (g : Random) (cam : Cam) : State Cam :=
  {| random := g;
     camera := cam;
     mouse := Vector2.zero;
     lastIntersected := None;
     blockGroup := mkGroup Euler.zero [];
     particles := [];
     colors := palette;
     blockCount := 150;
     particleCount := 300;
     clusterRadius := 8;
     calls := [] |}.

(** [createBlock(x, y, z, color)].  For a draw [r] that is a double the
    product [r * 0.5] is exact (a halving); the sum lies in [0.5, 1) and is
    rounded to a double. *)
Definition createBlock (x y z : Q) (color : option Z) : M Cam Block :=
  r <- Math_random ;;
  let size := round_below_one (r * 0.5 + 0.5) in
  ret {| position := Vector3.mk x y z;
         size := size;
         color := color;
         scale := Vector3.mk 1 1 1;
         castShadow := true;
         receiveShadow := true |}.

(** [this.blockGroup.add(block)] *)
Definition blockGroup_add (b : Block) : M Cam unit :=
  modify (fun s =>
    with_blockGroup (mkGroup (rotation (blockGroup s)) (children (blockGroup s) ++ [b])) s).

(** The body of the loop of [createBlocks]. *)
Definition createBlocks_body : M Cam unit :=
  r <- Math_random ;;
  let clusterIndex := Qfloor (r * 3) in
  cx <- Math_random ;;
  cy <- Math_random ;;
  cz <- Math_random ;;
  let clusterCenter := Vector3.mk ((cx - 0.5) * 10) ((cy - 0.5) * 10) ((cz - 0.5) * 10) in
  ox <- Math_random ;;
  R <- gets clusterRadius ;;
  let x := Vector3.x clusterCenter + (ox - 0.5) * R in
  oy <- Math_random ;;
  let y := Vector3.y clusterCenter + (oy - 0.5) * R in
  oz <- Math_random ;;
  let z := Vector3.z clusterCenter + (oz - 0.5) * R in
  rc <- Math_random ;;
  cols <- gets colors ;;
  let color := index cols (floor_scaled rc (length cols)) in
  block <- createBlock x y z color ;;
  blockGroup_add block.

(** [createBlocks()] *)
Definition createBlocks : M Cam unit :=
  n <- gets blockCount ;;
  for_loop n createBlocks_body.

(** The body of the loop of [createParticles]. *)
Definition createParticles_body : M Cam unit :=
  px <- Math_random ;;
  py <- Math_random ;;
  pz <- Math_random ;;
  vx <- Math_random ;;
  vy <- Math_random ;;
  vz <- Math_random ;;
  let particle :=
    {| p_position := Vector3.mk ((px - 0.5) * 30) ((py - 0.5) * 30) ((pz - 0.5) * 30);
       velocity := Vector3.mk ((vx - 0.5) * 0.02) ((vy - 0.5) * 0.02) ((vz - 0.5) * 0.02) |} in
  modify (fun s => with_particles (particles s ++ [particle]) s).

(** [createParticles()] *)
Definition createParticles : M Cam unit :=
  n <- gets particleCount ;;
  for_loop n createParticles_body.

(** The callback of [animateParticles]: one particle, and the random source
    it may draw from. *)
Definition animateParticle (p : Particle) (g : Random) : Particle * Random :=
  let position := Vector3.add (p_position p) (velocity p) in
  if Vector3.length_gt position 20 then
    let (px, g1) := next g in
    let (py, g2) := next g1 in
    let (pz, g3) := next g2 in
    let position' :=
      Vector3.set position ((px - 0.5) * 10) ((py - 0.5) * 10) ((pz - 0.5) * 10) in
    let (vx, g4) := next g3 in
    let (vy, g5) := next g4 in
    let (vz, g6) := next g5 in
    let velocity' :=
      Vector3.set (velocity p) ((vx - 0.5) * 0.02) ((vy - 0.5) * 0.02) ((vz - 0.5) * 0.02) in
    ({| p_position := position'; velocity := velocity' |}, g6)
  else ({| p_position := position; velocity := velocity p |}, g).

(** [this.particles.forEach(callback)]: the particles in order, the random
    source threaded through. *)
Fixpoint forEach_particle (ps : list Particle) (g : Random) : list Particle * Random :=
  match ps with
  | [] => ([], g)
  | p :: rest =>
      let (p', g') := animateParticle p g in
      let (rest', g'') := forEach_particle rest g' in
      (p' :: rest', g'')
  end.

(** [animateParticles()] *)
Definition animateParticles : M Cam unit :=
  modify (fun s =>
    let (ps, g) := forEach_particle (particles s) (random s) in
    with_particles ps (with_random g s)).

(** [block.scale.set(a, b, c)] on the block a reference points to. *)
Definition scale_set (i : nat) (a b c : Q) : M Cam unit :=
  modify (fun s =>
    with_blockGroup
      (mkGroup (rotation (blockGroup s))
               (alter (fun blk => set_scale blk a b c) i (children (blockGroup s)))) s).

(** [block.material.color.set(c)] on the block a reference points to. *)
Definition color_set (i : nat) (c : option Z) : M Cam unit :=
  modify (fun s =>
    with_blockGroup
      (mkGroup (rotation (blockGroup s))
               (alter (fun blk => set_color blk c) i (children (blockGroup s)))) s).

(** [this.blockGroup.rotation.x += d] and [this.blockGroup.rotation.y += d] *)
Definition rotation_x_add (d : Q) : M Cam unit :=
  modify (fun s =>
    let r := rotation (blockGroup s) in
    with_blockGroup
      (mkGroup (Euler.mk (Euler.x r + d) (Euler.y r) (Euler.z r)) (children (blockGroup s))) s).

Definition rotation_y_add (d : Q) : M Cam unit :=
  modify (fun s =>
    let r := rotation (blockGroup s) in
    with_blockGroup
      (mkGroup (Euler.mk (Euler.x r) (Euler.y r + d) (Euler.z r)) (children (blockGroup s))) s).

(** A call that only the host or the library sees. *)
Definition call (c : Call Cam) : M Cam unit :=
  modify (fun s => with_calls (calls s ++ [c]) s).

Context {lib : Library Cam}.

(** [onMouseMove(event)], with the window size at the time of the event.
    The ray query runs after the pointer is written and before any scale is
    touched.  (A window of width or height 0 is outside the model: the
    quotient is not a rational there.) *)
Definition onMouseMove (w : Window) (event : MouseEvent) : M Cam unit :=
  modify (with_mouse
    (Vector2.mk ((clientX event / innerWidth w) * 2 - 1)
                ((- (clientY event / innerHeight w)) * 2 + 1))) ;;;
  intersects <- gets intersectObjects ;;
  last <- gets lastIntersected ;;
  match last with
  | Some i => scale_set i 1 1 1
  | None => ret tt
  end ;;;
  match intersects with
  | hit :: _ =>
      modify (with_lastIntersected (Some (object hit))) ;;;
      scale_set (object hit) 1.1 1.1 1.1
  | [] => modify (with_lastIntersected None)
  end.

(** [onMouseClick(event)] *)
Definition onMouseClick : M Cam unit :=
  intersects <- gets intersectObjects ;;
  match intersects with
  | hit :: _ =>
      r <- Math_random ;;
      cols <- gets colors ;;
      color_set (object hit) (index cols (floor_scaled r (length cols)))
  | [] => ret tt
  end.

(** [this.controls.update()] *)
Definition controls_update_call : M Cam unit :=
  modify (fun s => with_camera (controls_update (camera s)) s) ;;;
  call ControlsUpdate.

(** [this.renderer.render(this.scene, this.camera)] *)
Definition renderer_render : M Cam unit :=
  s <- gets id ;;
  call (Render (blockGroup s) (particles s) (camera s)).

(** [animate()] *)
Definition animate : M Cam unit :=
  call RequestAnimationFrame ;;;
  rotation_x_add 0.002 ;;;
  rotation_y_add 0.002 ;;;
  animateParticles ;;;
  controls_update_call ;;;
  renderer_render.

(** [init()], from the point where camera and controls are in place: the
    blocks, the particles, then the first frame. *)
Definition init : M Cam unit :=
  createBlocks ;;;
  createParticles ;;;
  animate.

(** What the page delivers after [init]: pointer moves, clicks and frame
    callbacks, each handled to completion before the next. *)
Inductive Event : Type :=
| MouseMove (w : Window) (event : MouseEvent)
| Click
| AnimationFrame.

Definition dispatch (s : State Cam) (e : Event) : State Cam :=
  match e with
  | MouseMove w event => exec (onMouseMove w event) s
  | Click => exec onMouseClick s
  | AnimationFrame => exec animate s
  end.

Definition run (es : list Event) (s : State Cam) : State Cam :=
  fold_left dispatch es s.

Definition is_move (e : Event) : bool :=
  match e with MouseMove _ _ => true | _ => false end.

End Methods.

(** ** Closed forms of the generators

    One pass of the loop of [createBlocks] makes nine draws: the unused
    cluster index, the three coordinates of the centre, the three offsets,
    the colour and (inside [createBlock]) the size.  One pass of the loop of
    [createParticles] makes six.  The functions below build the object from
    the draws at and after position [k]; the lemmas further down show that
    the loops produce exactly these objects. *)

Definition clusterCenter_at (d : nat -> Q) (k : nat) : Vector3.t :=
  Vector3.mk ((d (1 + k)%nat - 0.5) * 10) ((d (2 + k)%nat - 0.5) * 10)
             ((d (3 + k)%nat - 0.5) * 10).

(** The positions of the draws [clusterCenter_at d k] reads. *)
Definition center_draws (k : nat) : list nat := [1 + k; 2 + k; 3 + k]%nat.

Definition offset_at (d : nat -> Q) (k : nat) (R : Q) : Vector3.t :=
  Vector3.mk ((d (4 + k)%nat - 0.5) * R) ((d (5 + k)%nat - 0.5) * R)
             ((d (6 + k)%nat - 0.5) * R).

Definition block_at (d : nat -> Q) (k : nat) (R : Q) (cols : list Z) : Block :=
  {| position := Vector3.add (clusterCenter_at d k) (offset_at d k R);
     size := round_below_one (d (8 + k)%nat * 0.5 + 0.5);
     color := index cols (floor_scaled (d (7 + k)%nat) (length cols));
     scale := Vector3.mk 1 1 1;
     castShadow := true;
     receiveShadow := true |}.

Definition particle_at (d : nat -> Q) (k : nat) : Particle :=
  {| p_position :=
       Vector3.mk ((d k - 0.5) * 30) ((d (1 + k)%nat - 0.5) * 30) ((d (2 + k)%nat - 0.5) * 30);
     velocity :=
       Vector3.mk ((d (3 + k)%nat - 0.5) * 0.02) ((d (4 + k)%nat - 0.5) * 0.02)
                  ((d (5 + k)%nat - 0.5) * 0.02) |}.

(** The position and velocity a reseed takes from the draws at [k]. *)
Definition reseed_at (d : nat -> Q) (k : nat) : Particle :=
  {| p_position :=
       Vector3.mk ((d k - 0.5) * 10) ((d (1 + k)%nat - 0.5) * 10) ((d (2 + k)%nat - 0.5) * 10);
     velocity :=
       Vector3.mk ((d (3 + k)%nat - 0.5) * 0.02) ((d (4 + k)%nat - 0.5) * 0.02)
                  ((d (5 + k)%nat - 0.5) * 0.02) |}.

(** ** The hover law as a predicate on states *)

Section HoverLaw.
Context {Cam : Type}.

(** Every block is at scale (1, 1, 1). *)
Definition unit_scales (s : State Cam) : Prop :=
  forall (i : nat) (b : Block),
    children (blockGroup s) !! i = Some b -> scale b = Vector3.mk 1 1 1.

(** A block away from scale (1, 1, 1) is the recorded hover target, at scale
    (1.1, 1.1, 1.1). *)
Definition hover_law (s : State Cam) : Prop :=
  forall (i : nat) (b : Block),
    children (blockGroup s) !! i = Some b ->
    scale b <> Vector3.mk 1 1 1 ->
    lastIntersected s = Some i /\ scale b = Vector3.mk 1.1 1.1 1.1.

(** The same in positive form, as the handlers maintain it: a block is at
    scale (1, 1, 1), or it is the hover target at scale (1.1, 1.1, 1.1). *)
Definition hover_inv (s : State Cam) : Prop :=
  forall (i : nat) (b : Block),
    children (blockGroup s) !! i = Some b ->
    scale b = Vector3.mk 1 1 1 \/
    (lastIntersected s = Some i /\ scale b = Vector3.mk 1.1 1.1 1.1).

(** No two blocks are away from scale (1, 1, 1). *)
Definition at_most_one_scaled (s : State Cam) : Prop :=
  forall (i j : nat) (bi bj : Block),
    children (blockGroup s) !! i = Some bi ->
    children (blockGroup s) !! j = Some bj ->
    scale bi <> Vector3.mk 1 1 1 ->
    scale bj <> Vector3.mk 1 1 1 ->
    i = j.

End HoverLaw.

(** ** Sample collaborators and inputs *)

(** A ray query for examples: the pointer at the centre of the viewport hits
    the first block, any other pointer position hits nothing. *)
Definition centre_hits_first (s : State unit) : list Intersection :=
  if Qeq_bool (Vector2.x (mouse s)) 0 && Qeq_bool (Vector2.y (mouse s)) 0 then
    match children (blockGroup s) with
    | [] => []
    | _ :: _ => [mkIntersection 1 0]
    end
  else [].

#[local] Instance sample_library : Library unit :=
  {| controls_update := fun c => c; intersectObjects := centre_hits_first |}.

(** Draws 0, 1/8, ..., 7/8, repeating. *)
Definition eighths : Random := mkRandom (fun i => Z.of_nat (i mod 8) # 8) 0.

(** The same draw every time. *)
Definition constant_draws (r : Q) : Random := mkRandom (fun _ => r) 0.

(** A scene that holds the given particles and nothing else. *)
Definition particle_scene (g : Random) (ps : list Particle) : State unit :=
  with_particles ps (constructor g tt).

(** A window, a pointer in its upper left quarter and a pointer at its
    centre. *)
Definition sample_window : Window := mkWindow 800 600.

Definition sample_move : MouseEvent := mkMouseEvent 200 150.

Definition centre_move : MouseEvent := mkMouseEvent 400 300.

(** The scene of the page after [init], with the sample collaborators. *)
Definition sample_scene : State unit := exec init (constructor eighths tt).

(** The same scene after the pointer has moved off the centre. *)
Definition moved_scene : State unit :=
  exec (onMouseMove sample_window sample_move) sample_scene.

Definition sample_events : list Event :=
  [MouseMove sample_window centre_move; Click; AnimationFrame;
   MouseMove sample_window sample_move].

(** A particle one step away from the boundary: at (19.9, 0, 0) with
    velocity (0.5, 0, 0). *)
Definition fast_particle : Particle :=
  mkParticle (Vector3.mk 19.9 0 0) (Vector3.mk 0.5 0 0).

(** A particle at rest inside the boundary, and one at rest outside it. *)
Definition still_particle : Particle := mkParticle (Vector3.mk 3 4 0) Vector3.zero.

Definition outside_particle : Particle := mkParticle (Vector3.mk 21 0 0) Vector3.zero.

(** ** Observations on a session *)

(** The frame callbacks among the events of a session. *)
Definition is_frame (e : Event) : bool :=
  match e with AnimationFrame => true | _ => false end.

Definition frames (es : list Event) : nat := length (List.filter is_frame es).

(** A logged call without what it was handed. *)
Inductive CallKind : Type := Requested | ControlsUpdated | Rendered.

Definition kind_of {Cam : Type} (c : Call Cam) : CallKind :=
  match c with
  | RequestAnimationFrame => Requested
  | ControlsUpdate => ControlsUpdated
  | Render _ _ _ => Rendered
  end.

(** What one frame logs. *)
Definition frame_calls : list CallKind := [Requested; ControlsUpdated; Rendered].

(** [particle.position.add(particle.velocity)] alone: the particle one step
    further along its velocity. *)
Definition drift (p : Particle) : Particle :=
  {| p_position := Vector3.add (p_position p) (velocity p); velocity := velocity p |}.

(** The pointer of a mouse event lies inside a window of positive size. *)
Definition inside_window (w : Window) (event : MouseEvent) : Prop :=
  0 < innerWidth w /\ 0 < innerHeight w /\
  (0 <= clientX event /\ clientX event <= innerWidth w) /\
  (0 <= clientY event /\ clientY event <= innerHeight w).

(** The ray query reports children of the block group only, which is what
    [intersectObjects(blockGroup.children)] does. *)
Definition hits_are_children {Cam : Type} (lib : Library Cam) : Prop :=
  forall (s : State Cam) (hit : Intersection),
    hit ∈ intersectObjects s -> (object hit < length (children (blockGroup s)))%nat.

(** The hover target is [null] or one of the blocks. *)
Definition target_is_block {Cam : Type} (s : State Cam) : Prop :=
  forall i : nat,
    lastIntersected s = Some i -> (i < length (children (blockGroup s)))%nat.

(** Every particle is within distance 20 of the origin (squared: 400) and
    every component of its velocity is in [-0.01, 0.01). *)
Definition particles_bounded {Cam : Type} (s : State Cam) : Prop :=
  forall (i : nat) (p : Particle),
    particles s !! i = Some p ->
    Vector3.lengthSq (p_position p) <= 20 * 20 /\
    Vector3.within (-0.01) 0.01 (velocity p).

(** Every block has a colour of the palette. *)
Definition palette_colours {Cam : Type} (s : State Cam) : Prop :=
  forall (i : nat) (b : Block),
    children (blockGroup s) !! i = Some b ->
    exists c : Z, color b = Some c /\ c ∈ palette.

(** A few frames, a click and pointer moves in between. *)
Definition busy_events : list Event :=
  [AnimationFrame; MouseMove sample_window centre_move; Click; AnimationFrame;
   MouseMove sample_window sample_move; AnimationFrame; Click].

(** The first block and the first particle of the sample scene after the
    events above. *)
Definition later_block : Block :=
  Eval vm_compute in
    match children (blockGroup (run busy_events sample_scene)) !! 0%nat with
    | Some b => b
    | None => mkBlock Vector3.zero 0 None Vector3.zero false false
    end.

Definition later_particle : Particle :=
  Eval vm_compute in
    match particles (run busy_events sample_scene) !! 0%nat with
    | Some p => p
    | None => still_particle
    end.

(** The step [animate] applies to the rotation of the block group:
    [rotation.x += 0.002; rotation.y += 0.002]. *)
Definition rotation_step (r : Euler.t) : Euler.t :=
  Euler.mk (Euler.x r + 0.002) (Euler.y r + 0.002) (Euler.z r).

(** The first block of the scene after a frame and a click at the centre. *)
Definition clicked_block : Block :=
  Eval vm_compute in
    match children (blockGroup (run [AnimationFrame; Click] sample_scene)) !! 0%nat with
    | Some b => b
    | None => mkBlock Vector3.zero 0 None Vector3.zero false false
    end.

(** The hit the sample ray query reports at the centre. *)
Definition centre_hit : Intersection := mkIntersection 1 0.

(** The draws of [eighths] with every ninth one, from the first on,
    replaced by 0. *)
Definition eighths_zeroed : Random :=
  mkRandom (fun i => if (i mod 9 =? 0)%nat then 0 else draws eighths i) 0.

(** The test of the callback of [animateParticles]: after the velocity add
    the particle is further than 20 from the origin. *)
Definition crosses (p : Particle) : bool :=
  Vector3.length_gt (p_position (drift p)) 20.

(** * Properties *)

(** ** Numbers and palette lookups *)

Lemma length_gt_true (v : Vector3.t) (c : Q) :
  Vector3.length_gt v c = true <-> c * c < Vector3.lengthSq v.
Proof.
  unfold Vector3.length_gt. rewrite negb_true_iff.
  destruct (Qle_bool (Vector3.lengthSq v) (c * c)) eqn:E.
  - apply Qle_bool_iff in E. split; [discriminate | intros H; lra].
  - split; [intros _ | reflexivity].
    apply Qnot_le_lt. intros H. apply Qle_bool_iff in H. congruence.
Qed.

Lemma length_gt_false (v : Vector3.t) (c : Q) :
  Vector3.length_gt v c = false <-> Vector3.lengthSq v <= c * c.
Proof.
  unfold Vector3.length_gt. rewrite negb_false_iff. apply Qle_bool_iff.
Qed.

Lemma round_half_even_bounds (x : Q) :
  (Qfloor x <= round_half_even x <= Qfloor x + 1)%Z.
Proof.
  unfold round_half_even.
  destruct (Qcompare (x - inject_Z (Qfloor x)) 0.5); [destruct (Z.even (Qfloor x)) | |]; lia.
Qed.

(** Rounding a sum in [0.5, 1) gives a double in [0.5, 1]: the upper end is
    reached. *)
Lemma round_below_one_range (x : Q) :
  0.5 <= x -> x < 1 -> 0.5 <= round_below_one x /\ round_below_one x <= 1.
Proof.
  intros Hlo Hhi. unfold round_below_one.
  pose proof (round_half_even_bounds (x * two53)) as [Hn0 Hn1].
  assert (Hf0 : (4503599627370496 <= Qfloor (x * two53))%Z).
  { rewrite <- (Qfloor_Z 4503599627370496). apply Qfloor_resp_le.
    unfold two53. change (inject_Z 4503599627370496) with 4503599627370496. lra. }
  assert (Hf1 : (Qfloor (x * two53) < 9007199254740992)%Z).
  { rewrite Zlt_Qlt. apply Qle_lt_trans with (x * two53); [apply Qfloor_le |].
    unfold two53. change (inject_Z 9007199254740992) with 9007199254740992. lra. }
  assert (H0 : inject_Z 4503599627370496 <= inject_Z (round_half_even (x * two53)))
    by (rewrite <- Zle_Qle; lia).
  assert (H1 : inject_Z (round_half_even (x * two53)) <= inject_Z 9007199254740992)
    by (rewrite <- Zle_Qle; lia).
  change (inject_Z 4503599627370496) with 4503599627370496 in H0.
  change (inject_Z 9007199254740992) with 9007199254740992 in H1.
  revert H0 H1. generalize (inject_Z (round_half_even (x * two53))). intros q H0 H1.
  unfold two53. split.
  - apply Qle_shift_div_l; lra.
  - apply Qle_shift_div_r; lra.
Qed.

Lemma floor_scaled_range (r : Q) (n : nat) :
  0 <= r -> r < 1 -> (0 < n)%nat ->
  (0 <= floor_scaled r n < Z.of_nat n)%Z.
Proof.
  intros H0 H1 Hn. unfold floor_scaled.
  set (m := inject_Z (Z.of_nat n)).
  assert (Hm : 0 < m).
  { unfold m. change 0 with (inject_Z 0). rewrite <- Zlt_Qlt. lia. }
  split.
  - change 0%Z with (Qfloor 0). apply Qfloor_resp_le. nra.
  - rewrite Zlt_Qlt. fold m.
    apply Qle_lt_trans with (r * m); [apply Qfloor_le | nra].
Qed.

Lemma index_palette (cols : list Z) (r : Q) :
  0 <= r -> r < 1 -> cols <> [] ->
  exists c : Z, index cols (floor_scaled r (length cols)) = Some c /\ c ∈ cols.
Proof.
  intros H0 H1 Hne.
  assert (Hlen : (0 < length cols)%nat) by (destruct cols; [congruence | simpl; lia]).
  destruct (floor_scaled_range r (length cols) H0 H1 Hlen) as [Hlo Hhi].
  unfold index. destruct (Z.ltb_spec (floor_scaled r (length cols)) 0); [lia |].
  destruct (lookup_lt_is_Some_2 cols (Z.to_nat (floor_scaled r (length cols)))) as [c Hc];
    [lia |].
  exists c. split; [exact Hc |]. apply list_elem_of_lookup. eauto.
Qed.

(** ** The generators *)

Section Generators.
Context {Cam : Type}.
Implicit Types s : State Cam.

Lemma createBlocks_body_exec s :
  exec createBlocks_body s =
  with_blockGroup
    (mkGroup (rotation (blockGroup s))
       (children (blockGroup s) ++
        [block_at (draws (random s)) (cursor (random s)) (clusterRadius s) (colors s)]))
    (with_random (mkRandom (draws (random s)) (9 + cursor (random s))) s).
Proof. destruct s as [[d c] ? ? ? [rot ch] ? ? ? ? ? ?]. reflexivity. Qed.

Lemma createParticles_body_exec s :
  exec createParticles_body s =
  with_particles
    (particles s ++ [particle_at (draws (random s)) (cursor (random s))])
    (with_random (mkRandom (draws (random s)) (6 + cursor (random s))) s).
Proof. destruct s as [[d c] ? ? ? ? ? ? ? ? ? ?]. reflexivity. Qed.

Lemma for_loop_S (n : nat) (body : M Cam unit) s :
  exec (for_loop (S n) body) s = exec (for_loop n body) (exec body s).
Proof.
  unfold exec. simpl. unfold bind. destruct (body s) as [[] s']. reflexivity.
Qed.

Lemma createBlocks_loop_exec (n : nat) s :
  exec (for_loop n createBlocks_body) s =
  with_blockGroup
    (mkGroup (rotation (blockGroup s))
       (children (blockGroup s) ++
        ((fun i : nat =>
            block_at (draws (random s)) (9 * i + cursor (random s)) (clusterRadius s)
                     (colors s)) <$> seq 0 n)))
    (with_random (mkRandom (draws (random s)) (9 * n + cursor (random s))) s).
Proof.
  revert s. induction n as [|n IH]; intros s.
  - destruct s as [[d c] ? ? ? [rot ch] ? ? ? ? ? ?]. unfold exec. simpl.
    rewrite app_nil_r. reflexivity.
  - rewrite for_loop_S, IH, createBlocks_body_exec.
    destruct s as [[d c] ? ? ? [rot ch] ? ? ? ? ? ?]. unfold with_blockGroup, with_random. simpl.
    rewrite <- app_assoc. simpl. rewrite <- seq_shift, <- list_fmap_compose.
    f_equal; [f_equal; lia |]. f_equal. f_equal. f_equal.
    apply list_fmap_ext. intros i x _. simpl. f_equal. lia.
Qed.

Lemma createParticles_loop_exec (n : nat) s :
  exec (for_loop n createParticles_body) s =
  with_particles
    (particles s ++
     ((fun i : nat => particle_at (draws (random s)) (6 * i + cursor (random s))) <$> seq 0 n))
    (with_random (mkRandom (draws (random s)) (6 * n + cursor (random s))) s).
Proof.
  revert s. induction n as [|n IH]; intros s.
  - destruct s as [[d c] ? ? ? ? ? ? ? ? ? ?]. unfold exec. simpl.
    rewrite app_nil_r. reflexivity.
  - rewrite for_loop_S, IH, createParticles_body_exec.
    destruct s as [[d c] ? ? ? ? ? ? ? ? ? ?]. unfold with_particles, with_random. simpl.
    rewrite <- app_assoc. simpl. rewrite <- seq_shift, <- list_fmap_compose.
    f_equal; [f_equal; lia |]. f_equal. f_equal.
    apply list_fmap_ext. intros i x _. simpl. f_equal. lia.
Qed.

Lemma createBlocks_exec s :
  exec createBlocks s = exec (for_loop (blockCount s) createBlocks_body) s.
Proof. reflexivity. Qed.

Lemma createParticles_exec s :
  exec createParticles s = exec (for_loop (particleCount s) createParticles_body) s.
Proof. reflexivity. Qed.

(** The blocks [createBlocks] adds, by index. *)
Lemma createBlocks_new s (j : nat) :
  (j < blockCount s)%nat ->
  children (blockGroup (exec createBlocks s)) !! (length (children (blockGroup s)) + j)%nat =
  Some (block_at (draws (random s)) (9 * j + cursor (random s)) (clusterRadius s) (colors s)).
Proof.
  intros Hj. rewrite createBlocks_exec, createBlocks_loop_exec. simpl.
  rewrite lookup_app_r by lia.
  replace (length (children (blockGroup s)) + j - length (children (blockGroup s)))%nat
    with j by lia.
  rewrite list_lookup_fmap, lookup_seq_lt by exact Hj. reflexivity.
Qed.

Lemma createBlocks_lookup s (i : nat) (b : Block) :
  (length (children (blockGroup s)) <= i)%nat ->
  children (blockGroup (exec createBlocks s)) !! i = Some b ->
  exists j : nat,
    (j < blockCount s)%nat /\
    b = block_at (draws (random s)) (9 * j + cursor (random s)) (clusterRadius s) (colors s).
Proof.
  intros Hi. rewrite createBlocks_exec, createBlocks_loop_exec. simpl.
  rewrite lookup_app_r by exact Hi. rewrite list_lookup_fmap.
  destruct (seq 0 (blockCount s) !! (i - length (children (blockGroup s)))%nat)
    as [j|] eqn:E; simpl; [| discriminate].
  apply lookup_seq in E as [-> Hlt]. intros [= <-]. eauto.
Qed.

Lemma createBlocks_old s (i : nat) :
  (i < length (children (blockGroup s)))%nat ->
  children (blockGroup (exec createBlocks s)) !! i = children (blockGroup s) !! i.
Proof.
  intros Hi. rewrite createBlocks_exec, createBlocks_loop_exec. simpl.
  apply lookup_app_l. exact Hi.
Qed.

Lemma createParticles_lookup s (i : nat) (p : Particle) :
  (length (particles s) <= i)%nat ->
  particles (exec createParticles s) !! i = Some p ->
  exists j : nat,
    (j < particleCount s)%nat /\
    p = particle_at (draws (random s)) (6 * j + cursor (random s)).
Proof.
  intros Hi. rewrite createParticles_exec, createParticles_loop_exec. simpl.
  rewrite lookup_app_r by exact Hi. rewrite list_lookup_fmap.
  destruct (seq 0 (particleCount s) !! (i - length (particles s))%nat)
    as [j|] eqn:E; simpl; [| discriminate].
  apply lookup_seq in E as [-> Hlt]. intros [= <-]. eauto.
Qed.

Lemma palette_cases (c : Z) :
  c ∈ palette -> c = 0x1e90ff%Z \/ c = 0x00ff7f%Z \/ c = 0xffffff%Z.
Proof.
  unfold palette. rewrite !elem_of_cons, elem_of_nil. tauto.
Qed.

(** C6, amended.  Every block that block generation produces has a size in
    [0.5, 1.0], the upper end included, and one of the three palette
    colours: blue 0x1e90ff, green 0x00ff7f or white 0xffffff. *)
Theorem createBlocks_size_and_color s (i : nat) (b : Block) :
  unit_draws (random s) ->
  colors s = palette ->
  (length (children (blockGroup s)) <= i)%nat ->
  children (blockGroup (exec createBlocks s)) !! i = Some b ->
  (0.5 <= size b /\ size b <= 1) /\
  (color b = Some 0x1e90ff%Z \/ color b = Some 0x00ff7f%Z \/ color b = Some 0xffffff%Z).
Proof.
  intros Hu Hcols Hi Hb.
  destruct (createBlocks_lookup s i b Hi Hb) as (j & _ & ->).
  cbn [block_at size color].
  split.
  - destruct (Hu (8 + (9 * j + cursor (random s)))%nat) as [H0 H1].
    apply round_below_one_range; lra.
  - destruct (Hu (7 + (9 * j + cursor (random s)))%nat) as [H0 H1].
    destruct (index_palette (colors s) _ H0 H1) as (c & -> & Hc);
      [rewrite Hcols; discriminate |].
    rewrite Hcols in Hc. apply palette_cases in Hc.
    destruct Hc as [-> | [-> | ->]]; auto.
Qed.

(** C7.  Every particle that particle generation produces has each position
    component in [-15, 15) and each velocity component in [-0.01, 0.01). *)
Theorem createParticles_ranges s (i : nat) (p : Particle) :
  unit_draws (random s) ->
  (length (particles s) <= i)%nat ->
  particles (exec createParticles s) !! i = Some p ->
  Vector3.within (-15) 15 (p_position p) /\ Vector3.within (-0.01) 0.01 (velocity p).
Proof.
  intros Hu Hi Hp.
  destruct (createParticles_lookup s i p Hi Hp) as (j & _ & ->).
  set (k := (6 * j + cursor (random s))%nat).
  pose proof (Hu k) as [? ?]. pose proof (Hu (1 + k)%nat) as [? ?].
  pose proof (Hu (2 + k)%nat) as [? ?]. pose proof (Hu (3 + k)%nat) as [? ?].
  pose proof (Hu (4 + k)%nat) as [? ?]. pose proof (Hu (5 + k)%nat) as [? ?].
  unfold Vector3.within, particle_at.
  cbn [p_position velocity Vector3.x Vector3.y Vector3.z]. repeat split; lra.
Qed.

Lemma clusterCenter_within (d : nat -> Q) (k : nat) :
  (forall i : nat, 0 <= d i /\ d i < 1) ->
  Vector3.within (-5) 5 (clusterCenter_at d k).
Proof.
  intros Hu.
  pose proof (Hu (1 + k)%nat) as [? ?]. pose proof (Hu (2 + k)%nat) as [? ?].
  pose proof (Hu (3 + k)%nat) as [? ?].
  unfold Vector3.within, clusterCenter_at.
  cbn [Vector3.x Vector3.y Vector3.z]. repeat split; lra.
Qed.

Lemma offset_component (r R : Q) :
  0 <= r -> r < 1 -> 0 <= R ->
  - (R / 2) <= (r - 0.5) * R /\ (r - 0.5) * R <= R / 2.
Proof.
  intros H0 H1 HR.
  assert (0 <= r * R) by (apply Qmult_le_0_compat; assumption).
  assert (0 <= (1 - r) * R) by (apply Qmult_le_0_compat; lra).
  assert (E : R / 2 == 0.5 * R) by field.
  rewrite E. split; lra.
Qed.

Lemma offset_bounded (d : nat -> Q) (k : nat) (R : Q) :
  (forall i : nat, 0 <= d i /\ d i < 1) -> 0 <= R ->
  Vector3.bounded (- (R / 2)) (R / 2) (offset_at d k R).
Proof.
  intros Hu HR.
  pose proof (Hu (4 + k)%nat) as [? ?]. pose proof (Hu (5 + k)%nat) as [? ?].
  pose proof (Hu (6 + k)%nat) as [? ?].
  unfold Vector3.bounded, offset_at.
  cbn [Vector3.x Vector3.y Vector3.z].
  repeat split; apply offset_component; assumption.
Qed.

Lemma center_draws_disjoint (i j c m : nat) :
  i <> j -> m ∈ center_draws (9 * i + c) -> m ∉ center_draws (9 * j + c).
Proof.
  unfold center_draws. rewrite !elem_of_cons, !elem_of_nil. lia.
Qed.

(** C5.  The [i]-th generated block sits at its cluster centre plus its
    offset.  The centre is read from three draws of the block's own, each
    scaled into the cube of half-width 5; the offset from three further
    draws, each scaled into [-R/2, R/2] for the clustering radius [R].  The
    draws behind the centre of one block are not read for the centre of any
    other block: no centre is shared or reused. *)
Theorem createBlocks_position s (i : nat) :
  (i < blockCount s)%nat ->
  let d := draws (random s) in
  let k := (9 * i + cursor (random s))%nat in
  let R := clusterRadius s in
  exists b : Block,
    children (blockGroup (exec createBlocks s)) !! (length (children (blockGroup s)) + i)%nat
      = Some b /\
    position b = Vector3.add (clusterCenter_at d k) (offset_at d k R) /\
    (unit_draws (random s) -> Vector3.within (-5) 5 (clusterCenter_at d k)) /\
    (unit_draws (random s) -> 0 <= R ->
     Vector3.bounded (- (R / 2)) (R / 2) (offset_at d k R)) /\
    (forall j m : nat,
       j <> i -> m ∈ center_draws (9 * j + cursor (random s)) -> m ∉ center_draws k).
Proof.
  intros Hi d k R.
  exists (block_at d k R (colors s)). split; [| split; [| split; [| split]]].
  - apply createBlocks_new. exact Hi.
  - reflexivity.
  - intros Hu. apply clusterCenter_within. exact Hu.
  - intros Hu HR. apply offset_bounded; assumption.
  - intros j m Hne Hm. apply (center_draws_disjoint j i _ m); assumption.
Qed.

End Generators.

(** ** The per-frame particle update *)

Lemma animateParticle_reseed (p : Particle) (g : Random) :
  Vector3.length_gt (Vector3.add (p_position p) (velocity p)) 20 = true ->
  animateParticle p g =
  (reseed_at (draws g) (cursor g), mkRandom (draws g) (6 + cursor g)).
Proof. intros H. unfold animateParticle. rewrite H. reflexivity. Qed.

Lemma animateParticle_keep (p : Particle) (g : Random) :
  Vector3.length_gt (Vector3.add (p_position p) (velocity p)) 20 = false ->
  animateParticle p g =
  ({| p_position := Vector3.add (p_position p) (velocity p); velocity := velocity p |}, g).
Proof. intros H. unfold animateParticle. rewrite H. reflexivity. Qed.

Lemma animateParticle_random (p : Particle) (g : Random) :
  draws (snd (animateParticle p g)) = draws g /\
  (cursor g <= cursor (snd (animateParticle p g)))%nat.
Proof.
  destruct (Vector3.length_gt (Vector3.add (p_position p) (velocity p)) 20) eqn:E.
  - rewrite animateParticle_reseed by exact E. simpl. split; [reflexivity | lia].
  - rewrite animateParticle_keep by exact E. simpl. split; [reflexivity | lia].
Qed.

Lemma forEach_particle_length (ps : list Particle) (g : Random) :
  length (fst (forEach_particle ps g)) = length ps.
Proof.
  revert g. induction ps as [|p rest IH]; intros g; simpl; [reflexivity |].
  destruct (animateParticle p g) as [p' g'].
  specialize (IH g'). destruct (forEach_particle rest g') as [rest' g''].
  simpl in *. congruence.
Qed.

(** Each particle is updated by the callback, with the random source as the
    particles before it left it. *)
Lemma forEach_particle_lookup (ps : list Particle) (g : Random) (i : nat) (p : Particle) :
  ps !! i = Some p ->
  exists gi : Random,
    draws gi = draws g /\ (cursor g <= cursor gi)%nat /\
    fst (forEach_particle ps g) !! i = Some (fst (animateParticle p gi)).
Proof.
  revert g i. induction ps as [|q rest IH]; intros g i Hi; [discriminate |].
  simpl. pose proof (animateParticle_random q g) as [Hd Hc].
  destruct (animateParticle q g) as [q' g'] eqn:Eq. simpl in Hd, Hc.
  destruct i as [|i]; simpl in Hi.
  - injection Hi as ->. exists g.
    destruct (forEach_particle rest g') as [rest' g'']. simpl.
    rewrite Eq. split; [reflexivity | split; [lia | reflexivity]].
  - destruct (IH g' i Hi) as (gi & Hdi & Hci & Hl). exists gi.
    destruct (forEach_particle rest g') as [rest' g'']. simpl in *.
    split; [congruence | split; [lia | exact Hl]].
Qed.

Lemma reseed_ranges (d : nat -> Q) (k : nat) :
  (forall i : nat, 0 <= d i /\ d i < 1) ->
  Vector3.within (-5) 5 (p_position (reseed_at d k)) /\
  Vector3.lengthSq (p_position (reseed_at d k)) <= 75 /\
  Vector3.within (-0.01) 0.01 (velocity (reseed_at d k)).
Proof.
  intros Hu.
  pose proof (Hu k) as [? ?]. pose proof (Hu (1 + k)%nat) as [? ?].
  pose proof (Hu (2 + k)%nat) as [? ?]. pose proof (Hu (3 + k)%nat) as [? ?].
  pose proof (Hu (4 + k)%nat) as [? ?]. pose proof (Hu (5 + k)%nat) as [? ?].
  unfold Vector3.within, Vector3.lengthSq, reseed_at.
  cbn [p_position velocity Vector3.x Vector3.y Vector3.z].
  set (a := (d k - 0.5) * 10). set (b := (d (1 + k)%nat - 0.5) * 10).
  set (c := (d (2 + k)%nat - 0.5) * 10).
  assert (Ha : -5 <= a /\ a < 5) by (unfold a; split; lra).
  assert (Hb : -5 <= b /\ b < 5) by (unfold b; split; lra).
  assert (Hc : -5 <= c /\ c < 5) by (unfold c; split; lra).
  repeat split; try lra. nra.
Qed.

Section Particles.
Context {Cam : Type}.
Implicit Types s : State Cam.

Lemma animateParticles_exec s :
  particles (exec animateParticles s) = fst (forEach_particle (particles s) (random s)) /\
  random (exec animateParticles s) = snd (forEach_particle (particles s) (random s)).
Proof.
  unfold exec, animateParticles, modify. simpl.
  destruct (forEach_particle (particles s) (random s)) as [ps g]. split; reflexivity.
Qed.

Lemma animateParticles_lookup s (i : nat) (p : Particle) :
  particles s !! i = Some p ->
  exists gi : Random,
    draws gi = draws (random s) /\ (cursor (random s) <= cursor gi)%nat /\
    particles (exec animateParticles s) !! i = Some (fst (animateParticle p gi)).
Proof.
  intros Hp. destruct (animateParticles_exec s) as [-> _].
  apply forEach_particle_lookup. exact Hp.
Qed.

(** C2, amended.  A particle whose position after the velocity add has norm
    above 20 is reseeded from six fresh draws: each position component is a
    draw scaled into [-5, 5), so the norm is at most 5 * sqrt 3 (squared:
    at most 75), and each velocity component is a draw scaled into
    [-0.01, 0.01).  A particle whose position after the add has norm at most
    20 keeps position = old position + velocity and keeps its velocity. *)
Theorem animateParticles_boundary s (i : nat) (p : Particle) :
  particles s !! i = Some p ->
  let moved := Vector3.add (p_position p) (velocity p) in
  exists p' : Particle,
    particles (exec animateParticles s) !! i = Some p' /\
    (20 * 20 < Vector3.lengthSq moved ->
     (exists k : nat,
        (cursor (random s) <= k)%nat /\ p' = reseed_at (draws (random s)) k) /\
     (unit_draws (random s) ->
      Vector3.within (-5) 5 (p_position p') /\
      Vector3.lengthSq (p_position p') <= 5 * 5 * 3 /\
      Vector3.within (-0.01) 0.01 (velocity p'))) /\
    (Vector3.lengthSq moved <= 20 * 20 ->
     p_position p' = moved /\ velocity p' = velocity p).
Proof.
  intros Hp moved.
  destruct (animateParticles_lookup s i p Hp) as (gi & Hd & Hc & Hl).
  exists (fst (animateParticle p gi)). split; [exact Hl |]. split.
  - intros Hfar. apply length_gt_true in Hfar.
    rewrite animateParticle_reseed by exact Hfar. simpl fst. rewrite Hd. split.
    + exists (cursor gi). split; [exact Hc | reflexivity].
    + intros Hu. destruct (reseed_ranges (draws (random s)) (cursor gi) Hu) as (H1 & H2 & H3).
      split; [exact H1 | split; [lra | exact H3]].
  - intros Hnear. apply length_gt_false in Hnear.
    rewrite animateParticle_keep by exact Hnear. split; reflexivity.
Qed.

(** C9.  After a call of the per-frame particle update every particle's
    position has norm at most 20 (squared: at most 400), and there are as
    many particles as before. *)
Theorem animateParticles_inside s :
  unit_draws (random s) ->
  length (particles (exec animateParticles s)) = length (particles s) /\
  forall (i : nat) (p' : Particle),
    particles (exec animateParticles s) !! i = Some p' ->
    Vector3.lengthSq (p_position p') <= 20 * 20.
Proof.
  intros Hu.
  assert (Hlen : length (particles (exec animateParticles s)) = length (particles s)).
  { destruct (animateParticles_exec s) as [-> _]. apply forEach_particle_length. }
  split; [exact Hlen |]. intros i p' Hp'.
  destruct (lookup_lt_is_Some_2 (particles s) i) as [p Hp].
  { rewrite <- Hlen. eapply lookup_lt_Some. exact Hp'. }
  destruct (animateParticles_lookup s i p Hp) as (gi & Hd & Hc & Hl).
  rewrite Hl in Hp'. injection Hp' as <-.
  destruct (Vector3.length_gt (Vector3.add (p_position p) (velocity p)) 20) eqn:E.
  - rewrite animateParticle_reseed by exact E. simpl fst. rewrite Hd.
    destruct (reseed_ranges (draws (random s)) (cursor gi) Hu) as (_ & H2 & _). lra.
  - rewrite animateParticle_keep by exact E. simpl.
    apply length_gt_false in E. exact E.
Qed.

Lemma add_zero_lengthSq (v w : Vector3.t) :
  Vector3.eqv w Vector3.zero ->
  Vector3.eqv (Vector3.add v w) v /\
  Vector3.lengthSq (Vector3.add v w) == Vector3.lengthSq v.
Proof.
  unfold Vector3.eqv, Vector3.lengthSq, Vector3.add, Vector3.zero.
  cbn [Vector3.x Vector3.y Vector3.z]. intros (Hx & Hy & Hz).
  rewrite Hx, Hy, Hz. repeat split; ring.
Qed.

(** C1, amended.  The per-frame particle update leaves the position of a
    particle unchanged when its velocity is the zero vector and its position
    has norm at most 20; the velocity stays as it is. *)
Theorem animateParticles_zero_velocity s (i : nat) (p : Particle) :
  particles s !! i = Some p ->
  Vector3.eqv (velocity p) Vector3.zero ->
  Vector3.lengthSq (p_position p) <= 20 * 20 ->
  exists p' : Particle,
    particles (exec animateParticles s) !! i = Some p' /\
    Vector3.eqv (p_position p') (p_position p) /\
    velocity p' = velocity p.
Proof.
  intros Hp Hzero Hnear.
  destruct (animateParticles_lookup s i p Hp) as (gi & _ & _ & Hl).
  destruct (add_zero_lengthSq (p_position p) (velocity p) Hzero) as [Heqv Hsq].
  exists (fst (animateParticle p gi)). split; [exact Hl |].
  rewrite animateParticle_keep.
  - split; [exact Heqv | reflexivity].
  - apply length_gt_false. rewrite Hsq. exact Hnear.
Qed.

End Particles.

(** ** Pointer interaction and the frame driver *)

Section Interaction.
Context {Cam : Type} {lib : Library Cam}.
Implicit Types s : State Cam.

Lemma hover_inv_law s : hover_inv s -> hover_law s /\ at_most_one_scaled s.
Proof.
  intros Hinv. split.
  - intros i b Hb Hne. destruct (Hinv i b Hb) as [H | H]; [contradiction | exact H].
  - intros i j bi bj Hi Hj Hni Hnj.
    destruct (Hinv i bi Hi) as [H | [Hli _]]; [contradiction |].
    destruct (Hinv j bj Hj) as [H | [Hlj _]]; [contradiction |].
    congruence.
Qed.

Lemma unit_scales_inv s : unit_scales s -> hover_inv s.
Proof. intros Hu i b Hb. left. exact (Hu i b Hb). Qed.

(** What a pointer move leaves behind, field by field. *)
Lemma onMouseMove_exec (w : Window) (event : MouseEvent) s :
  let m := Vector2.mk ((clientX event / innerWidth w) * 2 - 1)
                      ((- (clientY event / innerHeight w)) * 2 + 1) in
  let reset :=
    match lastIntersected s with
    | Some i => alter (fun blk => set_scale blk 1 1 1) i (children (blockGroup s))
    | None => children (blockGroup s)
    end in
  exec (onMouseMove w event) s =
  match intersectObjects (with_mouse m s) with
  | hit :: _ =>
      with_blockGroup
        (mkGroup (rotation (blockGroup s))
           (alter (fun blk => set_scale blk 1.1 1.1 1.1) (object hit) reset))
        (with_lastIntersected (Some (object hit)) (with_mouse m s))
  | [] =>
      with_blockGroup (mkGroup (rotation (blockGroup s)) reset)
        (with_lastIntersected None (with_mouse m s))
  end.
Proof.
  intros m reset. subst reset. unfold exec, onMouseMove, bind, gets, modify, scale_set, ret.
  cbn [snd fst]. fold m.
  destruct (intersectObjects (with_mouse m s)) as [|hit rest];
    destruct s as [? ? ? [i|] [rot ch] ? ? ? ? ? ?]; reflexivity.
Qed.

Lemma onMouseMove_hover_inv (w : Window) (event : MouseEvent) s :
  hover_inv s -> hover_inv (exec (onMouseMove w event) s).
Proof.
  intros Hinv. rewrite onMouseMove_exec.
  set (m := Vector2.mk _ _).
  set (reset := match lastIntersected s with Some _ => _ | None => _ end).
  assert (Hreset : forall (j : nat) (b : Block),
             reset !! j = Some b -> scale b = Vector3.mk 1 1 1).
  { intros j b. subst reset. destruct (lastIntersected s) as [i|] eqn:El.
    - destruct (decide (i = j)) as [-> | Hne].
      + rewrite list_lookup_alter_eq.
        destruct (children (blockGroup s) !! j); [| discriminate].
        intros [= <-]. reflexivity.
      + rewrite list_lookup_alter_ne by exact Hne. intros Hb.
        destruct (Hinv j b Hb) as [H | [H _]]; [exact H | congruence].
    - intros Hb. destruct (Hinv j b Hb) as [H | [H _]]; [exact H | congruence]. }
  destruct (intersectObjects (with_mouse m s)) as [|hit rest]; intros j b; simpl.
  - intros Hb. left. exact (Hreset j b Hb).
  - destruct (decide (object hit = j)) as [<- | Hne].
    + rewrite list_lookup_alter_eq.
      destruct (reset !! object hit); [| discriminate].
      intros [= <-]. right. split; reflexivity.
    + rewrite list_lookup_alter_ne by exact Hne. intros Hb. left. exact (Hreset j b Hb).
Qed.

(** What a click leaves behind. *)
Lemma onMouseClick_exec s :
  exec onMouseClick s =
  match intersectObjects s with
  | hit :: _ =>
      let g := random s in
      with_blockGroup
        (mkGroup (rotation (blockGroup s))
           (alter (fun blk =>
                     set_color blk
                       (index (colors s)
                          (floor_scaled (draws g (cursor g)) (length (colors s)))))
                  (object hit) (children (blockGroup s))))
        (with_random (mkRandom (draws g) (S (cursor g))) s)
  | [] => s
  end.
Proof.
  unfold exec, onMouseClick, bind, gets. cbn [snd fst].
  destruct (intersectObjects s) as [|hit rest]; [reflexivity |].
  destruct s as [[d c] ? ? ? [rot ch] ? ? ? ? ? ?]. reflexivity.
Qed.

Lemma onMouseClick_hover_inv s : hover_inv s -> hover_inv (exec onMouseClick s).
Proof.
  intros Hinv. rewrite onMouseClick_exec.
  destruct (intersectObjects s) as [|hit rest]; [exact Hinv |].
  intros j b. simpl.
  destruct (decide (object hit = j)) as [<- | Hne].
  - rewrite list_lookup_alter_eq.
    destruct (children (blockGroup s) !! object hit) as [b0|] eqn:E; [| discriminate].
    intros [= <-]. exact (Hinv _ b0 E).
  - rewrite list_lookup_alter_ne by exact Hne. apply Hinv.
Qed.

(** What a frame leaves behind, field by field. *)
Lemma animate_exec s :
  let r := rotation (blockGroup s) in
  let g' := mkGroup (Euler.mk (Euler.x r + 0.002) (Euler.y r + 0.002) (Euler.z r))
                    (children (blockGroup s)) in
  let ps' := fst (forEach_particle (particles s) (random s)) in
  let cam' := controls_update (camera s) in
  exec animate s =
  {| random := snd (forEach_particle (particles s) (random s));
     camera := cam';
     mouse := mouse s;
     lastIntersected := lastIntersected s;
     blockGroup := g';
     particles := ps';
     colors := colors s;
     blockCount := blockCount s;
     particleCount := particleCount s;
     clusterRadius := clusterRadius s;
     calls := calls s ++ [RequestAnimationFrame; ControlsUpdate; Render g' ps' cam'] |}.
Proof.
  unfold exec, animate, renderer_render, controls_update_call, animateParticles,
    rotation_x_add, rotation_y_add, call, bind, gets, modify.
  destruct s as [g ? ? ? [rot ch] ps ? ? ? ? cs]. cbn.
  destruct (forEach_particle ps g) as [ps' g']. cbn.
  rewrite <- !app_assoc. reflexivity.
Qed.

Lemma animate_hover_inv s : hover_inv s -> hover_inv (exec animate s).
Proof. intros Hinv. rewrite animate_exec. exact Hinv. Qed.

Lemma dispatch_hover_inv s (e : Event) : hover_inv s -> hover_inv (dispatch s e).
Proof.
  destruct e as [w event | |]; simpl.
  - apply onMouseMove_hover_inv.
  - apply onMouseClick_hover_inv.
  - apply animate_hover_inv.
Qed.

Lemma run_hover_inv (es : list Event) s : hover_inv s -> hover_inv (run es s).
Proof.
  revert s. induction es as [|e es IH]; intros s Hinv; [exact Hinv |].
  apply IH, dispatch_hover_inv, Hinv.
Qed.

(** C3.  Start with every block at scale (1, 1, 1).  After any sequence of
    pointer moves (clicks and frames may come between them) a block whose
    scale is not (1, 1, 1) is the recorded hover target and has scale
    exactly (1.1, 1.1, 1.1); so at most one block is away from scale
    (1, 1, 1). *)
Theorem hover_law_preserved s (es : list Event) :
  unit_scales s ->
  hover_law (run es s) /\ at_most_one_scaled (run es s).
Proof.
  intros Hu. apply hover_inv_law, run_hover_inv, unit_scales_inv, Hu.
Qed.

(** C4.  A click whose ray meets no block changes nothing: the colours, the
    positions and scales of the blocks, the hover target and every other
    part of the scene state stay as they were. *)
Theorem click_without_hit s :
  intersectObjects s = [] ->
  exec onMouseClick s = s.
Proof. intros Hnone. rewrite onMouseClick_exec, Hnone. reflexivity. Qed.

(** C8.  One call of the frame driver is the callback registration followed
    by four steps in this order: both rotation angles of the block group go
    up by 0.002, whatever the state; the particles are updated; the camera
    controls are updated; the scene is rendered.  The renderer is the last
    call made and is handed the rotated group, the updated particles and the
    updated camera. *)
Theorem animate_steps s :
  let s1 := exec (call RequestAnimationFrame) s in
  let s2 := exec (rotation_x_add 0.002 ;;; rotation_y_add 0.002) s1 in
  let s3 := exec animateParticles s2 in
  let s4 := exec controls_update_call s3 in
  let s' := exec animate s in
  let r := rotation (blockGroup s) in
  s' = exec renderer_render s4 /\
  rotation (blockGroup s') = Euler.mk (Euler.x r + 0.002) (Euler.y r + 0.002) (Euler.z r) /\
  children (blockGroup s') = children (blockGroup s) /\
  (particles s', random s') = forEach_particle (particles s) (random s) /\
  camera s' = controls_update (camera s) /\
  calls s' =
    calls s ++
    [RequestAnimationFrame; ControlsUpdate; Render (blockGroup s') (particles s') (camera s')].
Proof.
  intros s1 s2 s3 s4 s' r. subst s'. rewrite animate_exec. cbn.
  repeat split.
  - subst s4 s3 s2 s1.
    unfold exec, renderer_render, controls_update_call, animateParticles,
      rotation_x_add, rotation_y_add, call, bind, gets, modify.
    destruct s as [g ? ? ? [rot ch] ps ? ? ? ? cs]. cbn.
    destruct (forEach_particle ps g) as [ps' g']. cbn.
    rewrite <- !app_assoc. reflexivity.
  - destruct (forEach_particle (particles s) (random s)). reflexivity.
Qed.

Lemma exec_seq (m k : M Cam unit) s : exec (m ;;; k) s = exec k (exec m s).
Proof. unfold exec, bind. destruct (m s) as [[] s1]. reflexivity. Qed.

Lemma forEach_particle_draws (ps : list Particle) (g : Random) :
  draws (snd (forEach_particle ps g)) = draws g.
Proof.
  revert g. induction ps as [|p rest IH]; intros g; simpl; [reflexivity |].
  pose proof (animateParticle_random p g) as [Hd _].
  destruct (animateParticle p g) as [p' g']. specialize (IH g').
  destruct (forEach_particle rest g') as [rest' g'']. simpl in *. congruence.
Qed.

Lemma createBlocks_fields s :
  let s' := exec createBlocks s in
  mouse s' = mouse s /\ lastIntersected s' = lastIntersected s /\
  colors s' = colors s /\ draws (random s') = draws (random s) /\
  particles s' = particles s /\ particleCount s' = particleCount s /\
  length (children (blockGroup s')) = (length (children (blockGroup s)) + blockCount s)%nat.
Proof.
  intros s'. subst s'. rewrite createBlocks_exec, createBlocks_loop_exec.
  unfold with_blockGroup, with_random.
  cbn [mouse lastIntersected colors random draws particles particleCount blockGroup children].
  rewrite length_app, length_fmap, length_seq. repeat split.
Qed.

Lemma createParticles_fields s :
  let s' := exec createParticles s in
  mouse s' = mouse s /\ lastIntersected s' = lastIntersected s /\
  colors s' = colors s /\ draws (random s') = draws (random s) /\
  blockGroup s' = blockGroup s /\
  length (particles s') = (length (particles s) + particleCount s)%nat.
Proof.
  intros s'. subst s'. rewrite createParticles_exec, createParticles_loop_exec.
  unfold with_particles, with_random.
  cbn [mouse lastIntersected colors random draws particles blockGroup].
  rewrite length_app, length_fmap, length_seq. repeat split.
Qed.

Lemma createBlocks_unit_scales s : unit_scales s -> unit_scales (exec createBlocks s).
Proof.
  intros Hu i b Hb.
  destruct (Nat.lt_ge_cases i (length (children (blockGroup s)))) as [Hlt | Hge].
  - rewrite createBlocks_old in Hb by exact Hlt. exact (Hu i b Hb).
  - destruct (createBlocks_lookup s i b Hge Hb) as (j & _ & ->). reflexivity.
Qed.

Lemma animate_fields s :
  let s' := exec animate s in
  mouse s' = mouse s /\ lastIntersected s' = lastIntersected s /\
  colors s' = colors s /\ draws (random s') = draws (random s) /\
  children (blockGroup s') = children (blockGroup s) /\
  length (particles s') = length (particles s).
Proof.
  intros s'. subst s'. rewrite animate_exec. cbn.
  rewrite forEach_particle_draws, forEach_particle_length. repeat split.
Qed.

(** What [init] does to a scene, whatever the counts are. *)
Lemma init_fields s :
  let s' := exec init s in
  mouse s' = mouse s /\ lastIntersected s' = lastIntersected s /\
  colors s' = colors s /\ draws (random s') = draws (random s) /\
  (unit_scales s -> unit_scales s') /\
  length (children (blockGroup s')) = (length (children (blockGroup s)) + blockCount s)%nat /\
  length (particles s') = (length (particles s) + particleCount s)%nat.
Proof.
  intros s'. subst s'. unfold init. rewrite !exec_seq.
  pose proof (createBlocks_unit_scales s) as Hu1.
  destruct (createBlocks_fields s) as (Hm1 & Hl1 & Hc1 & Hd1 & Hp1 & Hn1 & Hlen1).
  set (s1 := exec createBlocks s) in *.
  destruct (createParticles_fields s1) as (Hm2 & Hl2 & Hc2 & Hd2 & Hg2 & Hlen2).
  set (s2 := exec createParticles s1) in *.
  destruct (animate_fields s2) as (Hm3 & Hl3 & Hc3 & Hd3 & Hch3 & Hlen3).
  set (s3 := exec animate s2) in *.
  split; [congruence |]. split; [congruence |]. split; [congruence |].
  split; [congruence |]. split; [| split].
  - intros Hu i b. rewrite Hch3, Hg2. apply Hu1, Hu.
  - rewrite Hch3, Hg2. exact Hlen1.
  - rewrite Hlen3, Hlen2, Hp1, Hn1. reflexivity.
Qed.

(** The scene as [init] leaves the scene of the constructor. *)
Lemma init_state (g : Random) (cam : Cam) :
  let s := exec init (constructor g cam) in
  mouse s = Vector2.zero /\ lastIntersected s = None /\ colors s = palette /\
  draws (random s) = draws g /\ unit_scales s /\
  length (children (blockGroup s)) = 150%nat /\ length (particles s) = 300%nat.
Proof.
  intros s. subst s.
  destruct (init_fields (constructor g cam)) as (Hm & Hl & Hc & Hd & Hu & Hb & Hp).
  split; [exact Hm |]. split; [exact Hl |]. split; [exact Hc |].
  split; [exact Hd |]. split; [| split; [exact Hb | exact Hp]].
  apply Hu. intros i b Hi. discriminate.
Qed.

(** Clicks and frames leave the pointer, the palette and the sequence of
    draws alone. *)
Lemma dispatch_no_move s (e : Event) :
  is_move e = false ->
  mouse (dispatch s e) = mouse s /\ colors (dispatch s e) = colors s /\
  draws (random (dispatch s e)) = draws (random s).
Proof.
  destruct e as [w event | |]; [discriminate | |]; intros _; cbn [dispatch].
  - rewrite onMouseClick_exec. destruct (intersectObjects s); repeat split.
  - destruct (animate_fields s) as (Hm & _ & Hc & Hd & _). repeat split; assumption.
Qed.

Lemma run_no_move (es : list Event) s :
  forallb (fun e => negb (is_move e)) es = true ->
  mouse (run es s) = mouse s /\ colors (run es s) = colors s /\
  draws (random (run es s)) = draws (random s).
Proof.
  revert s. induction es as [|e es IH]; intros s Hes; [repeat split |].
  simpl in Hes. apply andb_true_iff in Hes as [He Hes]. apply negb_true_iff in He.
  destruct (dispatch_no_move s e He) as (Hm & Hc & Hd).
  destruct (IH (dispatch s e) Hes) as (Hm' & Hc' & Hd').
  change (run (e :: es) s) with (run es (dispatch s e)).
  repeat split; congruence.
Qed.

(** C10.  The pointer starts at (0, 0).  A click that arrives before any
    pointer move (frames and other clicks may have come first) therefore
    casts its ray with the pointer at the centre of the viewport, and when
    that ray hits a block the click writes the colour of that block: whatever
    the colour was, it becomes the palette entry the next draw [r] selects,
    [palette[floor y]] for the product [y] of [r] and 3 as a double
    multiplication gives it (within the relative error 2^-53 of the exact
    product).  Position, size and scale of the block stay. *)
Theorem click_before_any_move (g : Random) (cam : Cam) (es : list Event) :
  forallb (fun e => negb (is_move e)) es = true ->
  let s := run es (exec init (constructor g cam)) in
  let r := draws (random s) (cursor (random s)) in
  mouse (constructor g cam) = Vector2.mk 0 0 /\
  mouse s = Vector2.mk 0 0 /\
  forall (hit : Intersection) (rest : list Intersection) (b : Block),
    intersectObjects s = hit :: rest ->
    children (blockGroup s) !! object hit = Some b ->
    exists b' : Block,
      children (blockGroup (exec onMouseClick s)) !! object hit = Some b' /\
      position b' = position b /\ size b' = size b /\ scale b' = scale b /\
      (unit_draws g ->
       exists (c : Z) (y : Q),
         (r * 3 * (1 - 1 / two53) <= y /\ y <= r * 3 * (1 + 1 / two53)) /\
         index palette (Qfloor y) = Some c /\
         color b' = Some c /\ c ∈ palette).
Proof.
  intros Hes s r.
  destruct (init_state g cam) as (Hm0 & _ & Hc0 & Hd0 & _).
  destruct (run_no_move es (exec init (constructor g cam)) Hes) as (Hm & Hc & Hd).
  fold s in Hm, Hc, Hd.
  split; [reflexivity |]. split; [rewrite Hm; exact Hm0 |].
  intros hit rest b Hhit Hb.
  exists (set_color b (index palette (floor_scaled r 3))).
  split; [| split; [reflexivity | split; [reflexivity | split; [reflexivity |]]]].
  - rewrite onMouseClick_exec, Hhit. cbn.
    rewrite list_lookup_alter_eq, Hb, Hc, Hc0. reflexivity.
  - intros Hu.
    assert (Hr : 0 <= r /\ r < 1) by (subst r; rewrite Hd, Hd0; apply Hu).
    destruct Hr as [H0 H1].
    destruct (index_palette palette r H0 H1) as (c & Hidx & Hin); [discriminate |].
    exists c, (r * 3). split; [| split; [exact Hidx | split; [| exact Hin]]].
    + unfold two53.
      assert (E : 0 <= r * 3 * (1 / 9007199254740992)).
      { apply Qmult_le_0_compat; [lra |]. vm_compute. discriminate. }
      split; lra.
    + cbn [color set_color]. exact Hidx.
Qed.

End Interaction.

(** ** The laws at sample inputs *)

Lemma eighths_unit_draws : unit_draws eighths.
Proof.
  intros i. unfold eighths, Qle, Qlt. simpl.
  pose proof (Nat.mod_upper_bound i 8). lia.
Qed.

Lemma constant_unit_draws (r : Q) : 0 <= r -> r < 1 -> unit_draws (constant_draws r).
Proof. intros H0 H1 i. simpl. split; assumption. Qed.

(** C1 as stated fails: a particle at rest at (21, 0, 0) is outside the
    boundary, so the update reseeds it; with every draw 1/2 it lands on the
    origin. *)
Lemma zero_velocity_outside_moves :
  Vector3.eqv (velocity outside_particle) Vector3.zero /\
  exists p' : Particle,
    particles (exec animateParticles (particle_scene (constant_draws 0.5) [outside_particle]))
      !! 0%nat = Some p' /\
    ~ Vector3.eqv (p_position p') (p_position outside_particle).
Proof.
  split; [repeat split |].
  eexists. split; [vm_compute; reflexivity |].
  intros (Hx & _). vm_compute in Hx. discriminate Hx.
Qed.

Lemma animateParticles_zero_velocity_witness :
  exists p' : Particle,
    particles (exec animateParticles (particle_scene eighths [fast_particle; still_particle]))
      !! 1%nat = Some p' /\
    Vector3.eqv (p_position p') (p_position still_particle) /\
    velocity p' = velocity still_particle.
Proof.
  apply (animateParticles_zero_velocity
           (particle_scene eighths [fast_particle; still_particle]) 1 still_particle).
  - reflexivity.
  - repeat split.
  - vm_compute. discriminate.
Defined.

(** C2 as stated fails at the corner of the cube: with every draw 0 the
    reseeded position is (-5, -5, -5), whose norm is 5 * sqrt 3 (squared:
    75), not below it. *)
Lemma reseed_reaches_corner :
  unit_draws (constant_draws 0) /\
  20 * 20 < Vector3.lengthSq (Vector3.add (p_position fast_particle) (velocity fast_particle)) /\
  exists p' : Particle,
    particles (exec animateParticles (particle_scene (constant_draws 0) [fast_particle]))
      !! 0%nat = Some p' /\
    Vector3.eqv (p_position p') (Vector3.mk (-5) (-5) (-5)) /\
    ~ Vector3.lengthSq (p_position p') < 5 * 5 * 3.
Proof.
  split; [apply constant_unit_draws; lra |].
  split; [vm_compute; reflexivity |].
  eexists. split; [vm_compute; reflexivity |].
  split; [repeat split |].
  vm_compute. discriminate.
Qed.

Lemma animateParticles_boundary_witness :
  exists p' : Particle,
    particles (exec animateParticles (particle_scene eighths [fast_particle; still_particle]))
      !! 0%nat = Some p' /\
    (20 * 20 < Vector3.lengthSq (Vector3.add (p_position fast_particle) (velocity fast_particle)) ->
     (exists k : nat,
        (cursor (random (particle_scene eighths [fast_particle; still_particle])) <= k)%nat /\
        p' = reseed_at (draws (random (particle_scene eighths [fast_particle; still_particle]))) k) /\
     (unit_draws (random (particle_scene eighths [fast_particle; still_particle])) ->
      Vector3.within (-5) 5 (p_position p') /\
      Vector3.lengthSq (p_position p') <= 5 * 5 * 3 /\
      Vector3.within (-0.01) 0.01 (velocity p'))) /\
    (Vector3.lengthSq (Vector3.add (p_position fast_particle) (velocity fast_particle)) <= 20 * 20 ->
     p_position p' = Vector3.add (p_position fast_particle) (velocity fast_particle) /\
     velocity p' = velocity fast_particle).
Proof.
  apply (animateParticles_boundary
           (particle_scene eighths [fast_particle; still_particle]) 0 fast_particle).
  reflexivity.
Defined.

Lemma animateParticles_inside_witness :
  length (particles (exec animateParticles
                       (particle_scene eighths [fast_particle; still_particle]))) =
  length (particles (particle_scene eighths [fast_particle; still_particle])) /\
  forall (i : nat) (p' : Particle),
    particles (exec animateParticles (particle_scene eighths [fast_particle; still_particle]))
      !! i = Some p' ->
    Vector3.lengthSq (p_position p') <= 20 * 20.
Proof.
  apply (animateParticles_inside (particle_scene eighths [fast_particle; still_particle])).
  exact eighths_unit_draws.
Defined.

Lemma hover_law_preserved_witness :
  hover_law (run sample_events sample_scene) /\
  at_most_one_scaled (run sample_events sample_scene).
Proof.
  apply (hover_law_preserved sample_scene sample_events).
  exact (proj1 (proj2 (proj2 (proj2 (proj2 (init_state eighths tt)))))).
Defined.

Lemma click_without_hit_witness : exec onMouseClick moved_scene = moved_scene.
Proof.
  apply (click_without_hit moved_scene).
  vm_compute. reflexivity.
Defined.

Lemma createBlocks_position_witness :
  exists b : Block,
    children (blockGroup (exec createBlocks (constructor eighths tt)))
      !! (length (children (blockGroup (constructor eighths tt))) + 1)%nat = Some b /\
    position b =
      Vector3.add (clusterCenter_at (draws eighths) 9) (offset_at (draws eighths) 9 8) /\
    (unit_draws eighths -> Vector3.within (-5) 5 (clusterCenter_at (draws eighths) 9)) /\
    (unit_draws eighths -> 0 <= 8 ->
     Vector3.bounded (- (8 / 2)) (8 / 2) (offset_at (draws eighths) 9 8)) /\
    (forall j m : nat, j <> 1%nat -> m ∈ center_draws (9 * j + 0) -> m ∉ center_draws 9).
Proof.
  apply (createBlocks_position (constructor eighths tt) 1).
  simpl. lia.
Defined.

(** C6 as stated fails at the upper end: for the largest draw, 1 - 2^-53,
    the sum 0.5 + r/2 lies half way between the doubles 1 - 2^-53 and 1 and
    is rounded to 1.  With every draw that large the first block has size
    1. *)
Lemma size_reaches_one :
  unit_draws (constant_draws largest_draw) /\
  colors (constructor (constant_draws largest_draw) tt) = palette /\
  exists b : Block,
    children (blockGroup (exec createBlocks (constructor (constant_draws largest_draw) tt)))
      !! 0%nat = Some b /\
    size b == 1 /\ ~ size b < 1.
Proof.
  split; [apply constant_unit_draws; [vm_compute; discriminate | vm_compute; reflexivity] |].
  split; [reflexivity |].
  eexists. split; [vm_compute; reflexivity |].
  split; [vm_compute; reflexivity |].
  vm_compute. discriminate.
Qed.

Lemma createBlocks_size_and_color_witness :
  (0.5 <= size (block_at (draws eighths) 0 8 palette) /\
   size (block_at (draws eighths) 0 8 palette) <= 1) /\
  (color (block_at (draws eighths) 0 8 palette) = Some 0x1e90ff%Z \/
   color (block_at (draws eighths) 0 8 palette) = Some 0x00ff7f%Z \/
   color (block_at (draws eighths) 0 8 palette) = Some 0xffffff%Z).
Proof.
  apply (createBlocks_size_and_color (constructor eighths tt) 0).
  - exact eighths_unit_draws.
  - reflexivity.
  - simpl. lia.
  - vm_compute. reflexivity.
Defined.

Lemma createParticles_ranges_witness :
  Vector3.within (-15) 15 (p_position (particle_at (draws eighths) 0)) /\
  Vector3.within (-0.01) 0.01 (velocity (particle_at (draws eighths) 0)).
Proof.
  apply (createParticles_ranges (constructor eighths tt) 0).
  - exact eighths_unit_draws.
  - simpl. lia.
  - vm_compute. reflexivity.
Defined.

Lemma click_before_any_move_witness :
  mouse (run [AnimationFrame; Click] (exec init (constructor eighths tt))) = Vector2.mk 0 0 /\
  intersectObjects (run [AnimationFrame; Click] (exec init (constructor eighths tt))) =
    [centre_hit] /\
  children (blockGroup (run [AnimationFrame; Click] (exec init (constructor eighths tt))))
    !! object centre_hit = Some clicked_block /\
  color clicked_block = Some 0x1e90ff%Z /\
  exists b' : Block,
    children (blockGroup
                (exec onMouseClick
                   (run [AnimationFrame; Click] (exec init (constructor eighths tt)))))
      !! object centre_hit = Some b' /\
    position b' = position clicked_block /\ size b' = size clicked_block /\
    scale b' = scale clicked_block /\
    exists (c : Z) (y : Q),
      (draws eighths 4051 * 3 * (1 - 1 / two53) <= y /\
       y <= draws eighths 4051 * 3 * (1 + 1 / two53)) /\
      index palette (Qfloor y) = Some c /\
      color b' = Some c /\ c ∈ palette.
Proof.
  pose proof (click_before_any_move eighths tt [AnimationFrame; Click] eq_refl) as H.
  cbv zeta in H. destruct H as (_ & Hm & Hclick).
  assert (Hhit : intersectObjects
                   (run [AnimationFrame; Click] (exec init (constructor eighths tt))) =
                 [centre_hit]) by (vm_compute; reflexivity).
  assert (Hb : children
                 (blockGroup (run [AnimationFrame; Click] (exec init (constructor eighths tt))))
                 !! object centre_hit = Some clicked_block) by (vm_compute; reflexivity).
  assert (Hcur : cursor (random (run [AnimationFrame; Click]
                                   (exec init (constructor eighths tt)))) = 4051%nat)
    by (vm_compute; reflexivity).
  assert (Hdr : draws (random (run [AnimationFrame; Click]
                                 (exec init (constructor eighths tt)))) = draws eighths)
    by (vm_compute; reflexivity).
  destruct (Hclick centre_hit [] clicked_block Hhit Hb) as (b' & Hb' & Hp & Hs & Hsc & Hcol).
  destruct (Hcol eighths_unit_draws) as (c & y & Hy & Hidx & Hc & Hin).
  rewrite Hcur, Hdr in Hy.
  split; [exact Hm |]. split; [exact Hhit |]. split; [exact Hb |].
  split; [vm_compute; reflexivity |].
  exists b'. split; [exact Hb' |]. split; [exact Hp |]. split; [exact Hs |].
  split; [exact Hsc |]. exists c, y.
  split; [exact Hy |]. split; [exact Hidx |]. split; [exact Hc | exact Hin].
Defined.

(** ** The handlers at work on the sample scene *)

(** The scenario of the specification: a particle at (19.9, 0, 0) with
    velocity (0.5, 0, 0) crosses the boundary and is reseeded within the same
    update; the particle at rest stays where it is. *)
Example fast_particle_is_reseeded :
  particles (exec animateParticles (particle_scene eighths [fast_particle; still_particle])) =
  [reseed_at (draws eighths) 0; still_particle] /\
  cursor (random (exec animateParticles
                    (particle_scene eighths [fast_particle; still_particle]))) = 6%nat.
Proof. split; vm_compute; reflexivity. Qed.

(** A pointer move to the centre enlarges the first block and records it; the
    next move, off the centre, puts it back. *)
Example centre_move_hovers_first_block :
  lastIntersected (exec (onMouseMove sample_window centre_move) sample_scene) = Some 0%nat /\
  scale <$> children (blockGroup (exec (onMouseMove sample_window centre_move) sample_scene))
    !! 0%nat = Some (Vector3.mk 1.1 1.1 1.1) /\
  lastIntersected (run sample_events sample_scene) = None /\
  scale <$> children (blockGroup (run sample_events sample_scene)) !! 0%nat =
    Some (Vector3.mk 1 1 1).
Proof.
  split; [| split; [| split]]; vm_compute; reflexivity.
Qed.

(** A click on the fresh scene recolours the first block: the block was
    white, the draw under the cursor selects blue. *)
Example first_click_recolors :
  color <$> children (blockGroup sample_scene) !! 0%nat = Some (Some 0xffffff%Z) /\
  color <$> children (blockGroup (exec onMouseClick sample_scene)) !! 0%nat =
    Some (Some 0x1e90ff%Z).
Proof. split; vm_compute; reflexivity. Qed.

(** * Further properties of the code *)

(** ** What the generators add *)

Section Batches.
Context {Cam : Type}.
Implicit Types s : State Cam.

(** X1.  [createBlocks] appends exactly [blockCount] blocks behind the children
    that are there, takes exactly nine draws for each, and leaves the
    rotation of the group and the particles alone. *)
Theorem createBlocks_appends s :
  let s' := exec createBlocks s in
  length (children (blockGroup s')) =
    (length (children (blockGroup s)) + blockCount s)%nat /\
  take (length (children (blockGroup s))) (children (blockGroup s')) =
    children (blockGroup s) /\
  cursor (random s') = (9 * blockCount s + cursor (random s))%nat /\
  draws (random s') = draws (random s) /\
  rotation (blockGroup s') = rotation (blockGroup s) /\
  particles s' = particles s.
Proof.
  intros s'. subst s'. rewrite createBlocks_exec, createBlocks_loop_exec.
  unfold with_blockGroup, with_random.
  cbn [random cursor draws particles blockGroup children rotation].
  rewrite length_app, length_fmap, length_seq, take_app_length.
  split; [reflexivity |]. split; [reflexivity |]. split; [reflexivity |].
  split; [reflexivity |]. split; reflexivity.
Qed.

(** X2.  [createParticles] appends exactly [particleCount] particles, takes
    exactly six draws for each, and leaves the blocks alone. *)
Theorem createParticles_appends s :
  let s' := exec createParticles s in
  length (particles s') = (length (particles s) + particleCount s)%nat /\
  take (length (particles s)) (particles s') = particles s /\
  cursor (random s') = (6 * particleCount s + cursor (random s))%nat /\
  draws (random s') = draws (random s) /\
  blockGroup s' = blockGroup s.
Proof.
  intros s'. subst s'. rewrite createParticles_exec, createParticles_loop_exec.
  unfold with_particles, with_random.
  cbn [random cursor draws particles blockGroup].
  rewrite length_app, length_fmap, length_seq, take_app_length.
  split; [reflexivity |]. split; [reflexivity |]. split; [reflexivity |].
  split; reflexivity.
Qed.

End Batches.

(** ** The session as a whole *)

Lemma fmap_alter_same {A B : Type} (f : A -> B) (g : A -> A) (l : list A) (i : nat) :
  (forall a : A, f (g a) = f a) -> f <$> alter g i l = f <$> l.
Proof.
  intros Hfg. revert i. induction l as [|a l IH]; intros [|i]; simpl; try reflexivity.
  - rewrite Hfg. reflexivity.
  - f_equal. apply IH.
Qed.

Section Session.
Context {Cam : Type} {lib : Library Cam}.
Implicit Types s : State Cam.

(** The children after the scale reset of [onMouseMove]. *)
Lemma reset_fmap {B : Type} (f : Block -> B) (last : option nat) (l : list Block) :
  (forall (blk : Block) (a b c : Q), f (set_scale blk a b c) = f blk) ->
  f <$> match last with
        | Some i => alter (fun blk => set_scale blk 1 1 1) i l
        | None => l
        end = f <$> l.
Proof.
  intros Hf. destruct last as [i|]; [| reflexivity].
  apply fmap_alter_same. intros blk. apply Hf.
Qed.

Lemma onMouseMove_fields (w : Window) (event : MouseEvent) s :
  let s' := exec (onMouseMove w event) s in
  (random s' = random s /\ camera s' = camera s /\ particles s' = particles s /\
   calls s' = calls s) /\
  (colors s' = colors s /\ blockCount s' = blockCount s /\
   particleCount s' = particleCount s /\ clusterRadius s' = clusterRadius s) /\
  rotation (blockGroup s') = rotation (blockGroup s) /\
  position <$> children (blockGroup s') = position <$> children (blockGroup s) /\
  size <$> children (blockGroup s') = size <$> children (blockGroup s) /\
  color <$> children (blockGroup s') = color <$> children (blockGroup s).
Proof.
  intros s'. subst s'. rewrite onMouseMove_exec.
  set (m := Vector2.mk _ _).
  destruct (intersectObjects (with_mouse m s)) as [|hit rest];
    cbn [random camera particles calls colors blockCount particleCount clusterRadius
         blockGroup rotation children with_blockGroup with_lastIntersected with_mouse];
    rewrite ?(fmap_alter_same position), ?(fmap_alter_same size), ?(fmap_alter_same color)
      by reflexivity;
    rewrite (reset_fmap position), (reset_fmap size), (reset_fmap color) by reflexivity;
    repeat split.
Qed.

Lemma onMouseClick_fields s :
  let s' := exec onMouseClick s in
  (draws (random s') = draws (random s) /\ camera s' = camera s /\
   particles s' = particles s /\ calls s' = calls s /\ mouse s' = mouse s /\
   lastIntersected s' = lastIntersected s) /\
  (colors s' = colors s /\ blockCount s' = blockCount s /\
   particleCount s' = particleCount s /\ clusterRadius s' = clusterRadius s) /\
  rotation (blockGroup s') = rotation (blockGroup s) /\
  position <$> children (blockGroup s') = position <$> children (blockGroup s) /\
  size <$> children (blockGroup s') = size <$> children (blockGroup s) /\
  scale <$> children (blockGroup s') = scale <$> children (blockGroup s).
Proof.
  intros s'. subst s'. rewrite onMouseClick_exec.
  destruct (intersectObjects s) as [|hit rest]; [repeat split |].
  cbn [random draws camera particles calls mouse lastIntersected colors blockCount
       particleCount clusterRadius blockGroup rotation children with_blockGroup
       with_random].
  rewrite (fmap_alter_same position), (fmap_alter_same size), (fmap_alter_same scale)
    by reflexivity.
  repeat split.
Qed.

Lemma animate_setup s :
  let s' := exec animate s in
  (colors s' = colors s /\ blockCount s' = blockCount s /\
   particleCount s' = particleCount s /\ clusterRadius s' = clusterRadius s) /\
  draws (random s') = draws (random s) /\
  children (blockGroup s') = children (blockGroup s) /\
  length (particles s') = length (particles s).
Proof.
  intros s'. subst s'. rewrite animate_exec. cbn.
  rewrite forEach_particle_draws, forEach_particle_length. repeat split.
Qed.

(** What no event changes. *)
Lemma dispatch_setup s (e : Event) :
  (colors (dispatch s e) = colors s /\ blockCount (dispatch s e) = blockCount s /\
   particleCount (dispatch s e) = particleCount s /\
   clusterRadius (dispatch s e) = clusterRadius s) /\
  draws (random (dispatch s e)) = draws (random s) /\
  position <$> children (blockGroup (dispatch s e)) = position <$> children (blockGroup s) /\
  size <$> children (blockGroup (dispatch s e)) = size <$> children (blockGroup s) /\
  length (particles (dispatch s e)) = length (particles s).
Proof.
  destruct e as [w event | |]; cbn [dispatch].
  - destruct (onMouseMove_fields w event s) as ((Hr & _ & Hp & _) & Hc & _ & Hpos & Hsz & _).
    rewrite Hr, Hp. split; [exact Hc |]. split; [reflexivity |].
    split; [exact Hpos |]. split; [exact Hsz | reflexivity].
  - destruct (onMouseClick_fields s) as ((Hd & _ & Hp & _) & Hc & _ & Hpos & Hsz & _).
    rewrite Hp. split; [exact Hc |]. split; [exact Hd |].
    split; [exact Hpos |]. split; [exact Hsz | reflexivity].
  - destruct (animate_setup s) as (Hc & Hd & Hch & Hlen). rewrite Hch.
    split; [exact Hc |]. split; [exact Hd |].
    split; [reflexivity |]. split; [reflexivity | exact Hlen].
Qed.

Lemma run_cons (e : Event) (es : list Event) s : run (e :: es) s = run es (dispatch s e).
Proof. reflexivity. Qed.

Lemma run_setup (es : list Event) s :
  (colors (run es s) = colors s /\ blockCount (run es s) = blockCount s /\
   particleCount (run es s) = particleCount s /\
   clusterRadius (run es s) = clusterRadius s) /\
  draws (random (run es s)) = draws (random s) /\
  position <$> children (blockGroup (run es s)) = position <$> children (blockGroup s) /\
  size <$> children (blockGroup (run es s)) = size <$> children (blockGroup s) /\
  length (particles (run es s)) = length (particles s).
Proof.
  revert s. induction es as [|e es IH]; intros s; [repeat split |].
  rewrite run_cons.
  destruct (IH (dispatch s e)) as ((H1 & H2 & H3 & H4) & H5 & H6 & H7 & H8).
  destruct (dispatch_setup s e) as ((G1 & G2 & G3 & G4) & G5 & G6 & G7 & G8).
  repeat split; congruence.
Qed.

(** X5.  The positions and sizes of the blocks are those they were created with:
    no pointer move, click or frame changes them, and none adds or removes a
    block. *)
Theorem geometry_is_fixed (es : list Event) s :
  position <$> children (blockGroup (run es s)) = position <$> children (blockGroup s) /\
  size <$> children (blockGroup (run es s)) = size <$> children (blockGroup s) /\
  length (children (blockGroup (run es s))) = length (children (blockGroup s)).
Proof.
  destruct (run_setup es s) as (_ & _ & Hpos & Hsz & _).
  split; [exact Hpos |]. split; [exact Hsz |].
  rewrite <- (length_fmap position), Hpos, length_fmap. reflexivity.
Qed.

(** X4.  After [init] the scene holds 150 blocks and 300 particles, and it holds
    as many after every sequence of pointer moves, clicks and frames. *)
Theorem counts_are_fixed (g : Random) (cam : Cam) (es : list Event) :
  length (children (blockGroup (run es (exec init (constructor g cam))))) = 150%nat /\
  length (particles (run es (exec init (constructor g cam)))) = 300%nat.
Proof.
  destruct (run_setup es (exec init (constructor g cam))) as (_ & _ & Hpos & _ & Hlen).
  destruct (init_state g cam) as (_ & _ & _ & _ & _ & Hb & Hp).
  split.
  - rewrite <- (length_fmap position), Hpos, length_fmap. exact Hb.
  - rewrite Hlen. exact Hp.
Qed.

(** *** The pointer *)

Lemma onMouseMove_mouse (w : Window) (event : MouseEvent) s :
  mouse (exec (onMouseMove w event) s) =
  Vector2.mk ((clientX event / innerWidth w) * 2 - 1)
             ((- (clientY event / innerHeight w)) * 2 + 1).
Proof.
  rewrite onMouseMove_exec.
  destruct (intersectObjects _) as [|hit rest]; reflexivity.
Qed.

Lemma fraction_in_unit (a b : Q) : 0 < b -> 0 <= a -> a <= b -> 0 <= a / b /\ a / b <= 1.
Proof.
  intros Hb H0 H1. split.
  - apply Qle_shift_div_l; [exact Hb | lra].
  - apply Qle_shift_div_r; [exact Hb | lra].
Qed.

Lemma fraction_lt (a a' b : Q) : 0 < b -> a < a' -> a / b < a' / b.
Proof.
  intros Hb Hlt. unfold Qdiv. apply Qmult_lt_compat_r; [| exact Hlt].
  apply Qinv_lt_0_compat. exact Hb.
Qed.

Lemma fraction_half (a b : Q) : 0 < b -> a * 2 == b -> a / b == 0.5.
Proof.
  intros Hb Hab. rewrite <- Hab. field. intros Ha. rewrite Ha in Hab. lra.
Qed.

(** X6.  A pointer inside the window is written to [mouse] with both coordinates
    in [-1, 1]. *)
Theorem pointer_in_square (w : Window) (event : MouseEvent) s :
  inside_window w event ->
  let m := mouse (exec (onMouseMove w event) s) in
  (-1 <= Vector2.x m /\ Vector2.x m <= 1) /\ (-1 <= Vector2.y m /\ Vector2.y m <= 1).
Proof.
  intros (HW & HH & [Hx0 Hx1] & [Hy0 Hy1]) m. subst m.
  rewrite onMouseMove_mouse. cbn [Vector2.x Vector2.y].
  destruct (fraction_in_unit (clientX event) (innerWidth w) HW Hx0 Hx1) as [Hqx0 Hqx1].
  destruct (fraction_in_unit (clientY event) (innerHeight w) HH Hy0 Hy1) as [Hqy0 Hqy1].
  revert Hqx0 Hqx1 Hqy0 Hqy1.
  generalize (clientX event / innerWidth w) (clientY event / innerHeight w).
  intros qx qy ? ? ? ?. repeat split; lra.
Qed.

(** X7.  The horizontal coordinate grows to the right, the vertical one is
    inverted (it shrinks downwards), and the centre of the window is written
    as (0, 0). *)
Theorem pointer_axes (w : Window) (e1 e2 : MouseEvent) s1 s2 :
  0 < innerWidth w -> 0 < innerHeight w ->
  let m1 := mouse (exec (onMouseMove w e1) s1) in
  let m2 := mouse (exec (onMouseMove w e2) s2) in
  (clientX e1 < clientX e2 -> Vector2.x m1 < Vector2.x m2) /\
  (clientY e1 < clientY e2 -> Vector2.y m2 < Vector2.y m1) /\
  (clientX e1 * 2 == innerWidth w -> Vector2.x m1 == 0) /\
  (clientY e1 * 2 == innerHeight w -> Vector2.y m1 == 0).
Proof.
  intros HW HH m1 m2. subst m1 m2.
  rewrite !onMouseMove_mouse. cbn [Vector2.x Vector2.y].
  split; [| split; [| split]].
  - intros Hlt. pose proof (fraction_lt _ _ _ HW Hlt). lra.
  - intros Hlt. pose proof (fraction_lt _ _ _ HH Hlt). lra.
  - intros Hc. rewrite (fraction_half _ _ HW Hc). reflexivity.
  - intros Hc. rewrite (fraction_half _ _ HH Hc). reflexivity.
Qed.

(** X8.  A pointer move draws no random number, logs no call and leaves the
    particles, the rotation and every block's position, size and colour as
    they were: all it writes is the pointer, the hover target and scales. *)
Theorem move_writes_scales_only (w : Window) (event : MouseEvent) s :
  let s' := exec (onMouseMove w event) s in
  random s' = random s /\ calls s' = calls s /\ particles s' = particles s /\
  rotation (blockGroup s') = rotation (blockGroup s) /\
  position <$> children (blockGroup s') = position <$> children (blockGroup s) /\
  size <$> children (blockGroup s') = size <$> children (blockGroup s) /\
  color <$> children (blockGroup s') = color <$> children (blockGroup s).
Proof.
  intros s'.
  destruct (onMouseMove_fields w event s) as ((Hr & _ & Hp & Hc) & _ & Hrot & H1 & H2 & H3).
  fold s' in Hr, Hp, Hc, Hrot, H1, H2, H3.
  split; [exact Hr |]. split; [exact Hc |]. split; [exact Hp |].
  split; [exact Hrot |]. split; [exact H1 |]. split; [exact H2 | exact H3].
Qed.

(** X12.  A click that hits a block takes exactly one draw and changes nothing but
    the colour of that one block: the other blocks, every position, size and
    scale, the hover target, the pointer, the particles and the call log stay
    as they were. *)
Theorem click_changes_one_colour s (hit : Intersection) (rest : list Intersection) :
  intersectObjects s = hit :: rest ->
  let s' := exec onMouseClick s in
  (forall j : nat,
     j <> object hit -> children (blockGroup s') !! j = children (blockGroup s) !! j) /\
  position <$> children (blockGroup s') = position <$> children (blockGroup s) /\
  size <$> children (blockGroup s') = size <$> children (blockGroup s) /\
  scale <$> children (blockGroup s') = scale <$> children (blockGroup s) /\
  lastIntersected s' = lastIntersected s /\ mouse s' = mouse s /\
  particles s' = particles s /\ calls s' = calls s /\
  cursor (random s') = S (cursor (random s)).
Proof.
  intros Hhit s'.
  destruct (onMouseClick_fields s) as ((_ & _ & Hp & Hc & Hm & Hl) & _ & _ & H1 & H2 & H3).
  fold s' in Hp, Hc, Hm, Hl, H1, H2, H3.
  split; [| split; [exact H1 | split; [exact H2 | split; [exact H3 |]]]].
  - intros j Hj. subst s'. rewrite onMouseClick_exec, Hhit.
    cbn [blockGroup children with_blockGroup].
    apply list_lookup_alter_ne. congruence.
  - split; [exact Hl |]. split; [exact Hm |]. split; [exact Hp |]. split; [exact Hc |].
    subst s'. rewrite onMouseClick_exec, Hhit. reflexivity.
Qed.

(** *** The hover target *)

Lemma reset_unit_scales s :
  hover_inv s ->
  forall (j : nat) (b : Block),
    match lastIntersected s with
    | Some i => alter (fun blk => set_scale blk 1 1 1) i (children (blockGroup s))
    | None => children (blockGroup s)
    end !! j = Some b ->
    scale b = Vector3.mk 1 1 1.
Proof.
  intros Hinv j b. destruct (lastIntersected s) as [i|] eqn:El.
  - destruct (decide (i = j)) as [-> | Hne].
    + rewrite list_lookup_alter_eq.
      destruct (children (blockGroup s) !! j); [| discriminate].
      intros [= <-]. reflexivity.
    + rewrite list_lookup_alter_ne by exact Hne. intros Hb.
      destruct (Hinv j b Hb) as [H | [H _]]; [exact H | congruence].
  - intros Hb. destruct (Hinv j b Hb) as [H | [H _]]; [exact H | congruence].
Qed.

Lemma reset_length (last : option nat) (l : list Block) :
  length match last with
         | Some i => alter (fun blk => set_scale blk 1 1 1) i l
         | None => l
         end = length l.
Proof. destruct last; [apply length_alter | reflexivity]. Qed.

(** X9.  In a session that started with every block at scale (1, 1, 1), a pointer
    move whose ray meets no block clears the hover target and leaves every
    block at scale (1, 1, 1). *)
Theorem move_off_blocks_clears_hover s0 (es : list Event) (w : Window) (event : MouseEvent) :
  unit_scales s0 ->
  let s := run es s0 in
  let s' := exec (onMouseMove w event) s in
  intersectObjects (with_mouse (mouse s') s) = [] ->
  lastIntersected s' = None /\ unit_scales s'.
Proof.
  intros Hu s s'. subst s'. rewrite onMouseMove_mouse, onMouseMove_exec.
  intros Hnone. rewrite Hnone.
  pose proof (reset_unit_scales s (run_hover_inv es s0 (unit_scales_inv s0 Hu))) as Hreset.
  split; [reflexivity |]. intros j b. exact (Hreset j b).
Qed.

(** X10.  In such a session, a pointer move whose ray meets a block records the
    nearest hit as the hover target and leaves that block at scale
    (1.1, 1.1, 1.1) and every other block at scale (1, 1, 1). *)
Theorem move_onto_block_enlarges_it s0 (es : list Event) (w : Window) (event : MouseEvent)
    (hit : Intersection) (rest : list Intersection) :
  unit_scales s0 ->
  let s := run es s0 in
  let s' := exec (onMouseMove w event) s in
  intersectObjects (with_mouse (mouse s') s) = hit :: rest ->
  (object hit < length (children (blockGroup s)))%nat ->
  lastIntersected s' = Some (object hit) /\
  scale <$> children (blockGroup s') !! object hit = Some (Vector3.mk 1.1 1.1 1.1) /\
  forall (j : nat) (b : Block),
    j <> object hit -> children (blockGroup s') !! j = Some b -> scale b = Vector3.mk 1 1 1.
Proof.
  intros Hu s s'. subst s'. rewrite onMouseMove_mouse, onMouseMove_exec.
  intros Hhit Hrange. rewrite Hhit.
  pose proof (reset_unit_scales s (run_hover_inv es s0 (unit_scales_inv s0 Hu))) as Hreset.
  cbn [lastIntersected blockGroup children with_blockGroup with_lastIntersected].
  split; [reflexivity |]. split.
  - rewrite list_lookup_alter_eq.
    destruct (lookup_lt_is_Some_2
                match lastIntersected s with
                | Some i => alter (fun blk => set_scale blk 1 1 1) i (children (blockGroup s))
                | None => children (blockGroup s)
                end (object hit)) as [b Hb];
      [rewrite reset_length; exact Hrange |].
    rewrite Hb. reflexivity.
  - intros j b Hj. rewrite list_lookup_alter_ne by congruence. apply Hreset.
Qed.

Lemma dispatch_target s (e : Event) :
  hits_are_children lib -> target_is_block s -> target_is_block (dispatch s e).
Proof.
  intros Hlib Ht. destruct e as [w event | |]; cbn [dispatch].
  - rewrite onMouseMove_exec. set (m := Vector2.mk _ _).
    destruct (intersectObjects (with_mouse m s)) as [|hit rest] eqn:Eh; intros i;
      cbn [lastIntersected blockGroup children with_blockGroup with_lastIntersected];
      [discriminate |].
    intros [= <-]. rewrite length_alter, reset_length.
    apply (Hlib (with_mouse m s) hit). rewrite Eh. apply elem_of_cons. left. reflexivity.
  - destruct (onMouseClick_fields s) as ((_ & _ & _ & _ & _ & Hl) & _ & _ & Hpos & _).
    intros i. rewrite Hl, <- (length_fmap position), Hpos, length_fmap. apply Ht.
  - rewrite animate_exec. exact Ht.
Qed.

(** X11.  When the ray query reports children of the block group only, the hover
    target is, after [init] and every sequence of events, [null] or one of
    the blocks of the scene. *)
Theorem hover_target_is_a_block (g : Random) (cam : Cam) (es : list Event) :
  hits_are_children lib ->
  target_is_block (run es (exec init (constructor g cam))).
Proof.
  intros Hlib.
  assert (H0 : target_is_block (exec init (constructor g cam))).
  { destruct (init_state g cam) as (_ & Hl & _). intros i Hi. congruence. }
  revert H0. generalize (exec init (constructor g cam)).
  induction es as [|e es IH]; intros s Hs; [exact Hs |].
  rewrite run_cons. apply IH, dispatch_target; assumption.
Qed.

(** *** Frames *)

Lemma frames_cons (e : Event) (es : list Event) :
  frames (e :: es) = if is_frame e then S (frames es) else frames es.
Proof. unfold frames. simpl. destruct (is_frame e); reflexivity. Qed.

Lemma dispatch_rotation s (e : Event) :
  let r := rotation (blockGroup s) in
  rotation (blockGroup (dispatch s e)) =
  if is_frame e then Euler.mk (Euler.x r + 0.002) (Euler.y r + 0.002) (Euler.z r) else r.
Proof.
  destruct e as [w event | |]; cbn [dispatch is_frame].
  - destruct (onMouseMove_fields w event s) as (_ & _ & Hrot & _). exact Hrot.
  - destruct (onMouseClick_fields s) as (_ & _ & Hrot & _). exact Hrot.
  - rewrite animate_exec. reflexivity.
Qed.

(** X15.  The rotation of the block group after a session is the rotation it
    started with, with the step of one frame ([x += 0.002], [y += 0.002],
    [z] kept) applied once per frame: pointer moves and clicks never change
    it, and it does not matter how they are interleaved with the frames. *)
Theorem rotation_counts_frames (es : list Event) s :
  rotation (blockGroup (run es s)) =
  Nat.iter (frames es) rotation_step (rotation (blockGroup s)).
Proof.
  revert s. induction es as [|e es IH]; intros s; [reflexivity |].
  rewrite run_cons, frames_cons, IH, dispatch_rotation.
  destruct (is_frame e); [| reflexivity].
  rewrite Nat.iter_succ_r. reflexivity.
Qed.

Lemma dispatch_calls s (e : Event) :
  kind_of <$> calls (dispatch s e) =
  (kind_of <$> calls s) ++ (if is_frame e then frame_calls else []).
Proof.
  destruct e as [w event | |]; cbn [dispatch is_frame].
  - destruct (onMouseMove_fields w event s) as ((_ & _ & _ & Hc) & _).
    rewrite Hc, app_nil_r. reflexivity.
  - destruct (onMouseClick_fields s) as ((_ & _ & _ & Hc & _) & _).
    rewrite Hc, app_nil_r. reflexivity.
  - rewrite animate_exec. cbn [calls]. rewrite fmap_app. reflexivity.
Qed.

(** X16.  Every frame asks for exactly one further frame, updates the controls
    once and renders once, in this order; pointer moves and clicks call
    neither the host nor the renderer. *)
Theorem calls_count_frames (es : list Event) s :
  kind_of <$> calls (run es s) =
  (kind_of <$> calls s) ++ concat (repeat frame_calls (frames es)).
Proof.
  revert s. induction es as [|e es IH]; intros s.
  - cbn [run fold_left]. change (frames []) with 0%nat. simpl. rewrite app_nil_r. reflexivity.
  - rewrite run_cons, IH, dispatch_calls, frames_cons, <- app_assoc.
    destruct (is_frame e); reflexivity.
Qed.

Lemma createBlocks_log s :
  calls (exec createBlocks s) = calls s /\ camera (exec createBlocks s) = camera s.
Proof. rewrite createBlocks_exec, createBlocks_loop_exec. split; reflexivity. Qed.

Lemma createParticles_log s :
  calls (exec createParticles s) = calls s /\ camera (exec createParticles s) = camera s.
Proof. rewrite createParticles_exec, createParticles_loop_exec. split; reflexivity. Qed.

Lemma init_log s :
  let s' := exec init s in
  calls s' =
    calls s ++
    [RequestAnimationFrame; ControlsUpdate;
     Render (blockGroup s') (particles s') (camera s')] /\
  camera s' = controls_update (camera s).
Proof.
  intros s'. subst s'. unfold init. rewrite !exec_seq.
  destruct (createBlocks_log s) as [Hc1 Hk1].
  set (s1 := exec createBlocks s) in *.
  destruct (createParticles_log s1) as [Hc2 Hk2].
  set (s2 := exec createParticles s1) in *.
  rewrite animate_exec. cbn [calls camera blockGroup particles].
  rewrite Hc2, Hc1, Hk2, Hk1. split; reflexivity.
Qed.

(** X17.  [init] renders once, as the last thing it does, and the renderer is
    handed the finished scene: all 150 blocks, all 300 particles and the
    camera after the first update of the controls. *)
Theorem first_render_is_complete (g : Random) (cam : Cam) :
  exists (grp : Group) (ps : list Particle),
    calls (exec init (constructor g cam)) =
      [RequestAnimationFrame; ControlsUpdate; Render grp ps (controls_update cam)] /\
    grp = blockGroup (exec init (constructor g cam)) /\
    ps = particles (exec init (constructor g cam)) /\
    length (children grp) = 150%nat /\ length ps = 300%nat.
Proof.
  destruct (init_log (constructor g cam)) as [Hc Hk].
  destruct (init_state g cam) as (_ & _ & _ & _ & _ & Hb & Hp).
  exists (blockGroup (exec init (constructor g cam))),
         (particles (exec init (constructor g cam))).
  split; [| split; [reflexivity | split; [reflexivity | split; [exact Hb | exact Hp]]]].
  rewrite Hc, Hk. reflexivity.
Qed.

(** *** Particles over a session *)



Lemma animateParticle_bounds (p : Particle) (g : Random) :
  unit_draws g ->
  Vector3.within (-0.01) 0.01 (velocity p) ->
  Vector3.lengthSq (p_position (fst (animateParticle p g))) <= 20 * 20 /\
  Vector3.within (-0.01) 0.01 (velocity (fst (animateParticle p g))).
Proof.
  intros Hu Hv.
  destruct (Vector3.length_gt (Vector3.add (p_position p) (velocity p)) 20) eqn:E.
  - rewrite animateParticle_reseed by exact E. cbn [fst].
    destruct (reseed_ranges (draws g) (cursor g) Hu) as (_ & H2 & H3).
    split; [lra | exact H3].
  - rewrite animateParticle_keep by exact E. cbn [fst p_position velocity].
    apply length_gt_false in E. split; [exact E | exact Hv].
Qed.

Lemma animate_bounds s :
  unit_draws (random s) ->
  (forall (i : nat) (p : Particle),
     particles s !! i = Some p -> Vector3.within (-0.01) 0.01 (velocity p)) ->
  particles_bounded (exec animate s).
Proof.
  intros Hu Hv i p' Hp'. rewrite animate_exec in Hp'. cbn [particles] in Hp'.
  destruct (lookup_lt_is_Some_2 (particles s) i) as [p Hp].
  { rewrite <- (forEach_particle_length (particles s) (random s)).
    eapply lookup_lt_Some. exact Hp'. }
  destruct (forEach_particle_lookup _ (random s) i p Hp) as (gi & Hd & _ & Hl).
  rewrite Hl in Hp'. injection Hp' as <-.
  apply animateParticle_bounds; [| exact (Hv i p Hp)].
  intros k. rewrite Hd. apply Hu.
Qed.

Lemma dispatch_bounds s (e : Event) :
  unit_draws (random s) -> particles_bounded s -> particles_bounded (dispatch s e).
Proof.
  intros Hu Hb. destruct e as [w event | |]; cbn [dispatch].
  - destruct (onMouseMove_fields w event s) as ((_ & _ & Hp & _) & _).
    intros i p. rewrite Hp. apply Hb.
  - destruct (onMouseClick_fields s) as ((_ & _ & Hp & _) & _).
    intros i p. rewrite Hp. apply Hb.
  - apply animate_bounds; [exact Hu |]. intros i p Hp. exact (proj2 (Hb i p Hp)).
Qed.

Lemma run_bounds (es : list Event) s :
  unit_draws (random s) -> particles_bounded s -> particles_bounded (run es s).
Proof.
  revert s. induction es as [|e es IH]; intros s Hu Hb; [exact Hb |].
  rewrite run_cons. apply IH; [| apply dispatch_bounds; assumption].
  intros k. destruct (dispatch_setup s e) as (_ & Hd & _). rewrite Hd. apply Hu.
Qed.

Lemma init_bounds s :
  unit_draws (random s) -> particles s = [] -> particles_bounded (exec init s).
Proof.
  intros Hu Hnil. unfold init. rewrite !exec_seq.
  destruct (createBlocks_fields s) as (_ & _ & _ & Hd1 & Hp1 & _).
  set (s1 := exec createBlocks s) in *.
  destruct (createParticles_fields s1) as (_ & _ & _ & Hd2 & _).
  assert (Hv : forall (i : nat) (p : Particle),
             particles (exec createParticles s1) !! i = Some p ->
             Vector3.within (-0.01) 0.01 (velocity p)).
  { intros i p Hp.
    destruct (createParticles_lookup s1 i p) as (j & _ & ->);
      [rewrite Hp1, Hnil; simpl; lia | exact Hp |].
    set (k := (6 * j + cursor (random s1))%nat).
    assert (Hu1 : forall n : nat, 0 <= draws (random s1) n /\ draws (random s1) n < 1)
      by (intros n; rewrite Hd1; apply Hu).
    pose proof (Hu1 (3 + k)%nat) as [? ?]. pose proof (Hu1 (4 + k)%nat) as [? ?].
    pose proof (Hu1 (5 + k)%nat) as [? ?].
    unfold Vector3.within, particle_at.
    cbn [velocity Vector3.x Vector3.y Vector3.z]. repeat split; lra. }
  apply animate_bounds; [| exact Hv].
  intros k. rewrite Hd2, Hd1. apply Hu.
Qed.

(** X20.  With draws in [0, 1), at every moment after [init] (between any two
    events of a session) every particle is within distance 20 of the origin
    and every component of its velocity is in [-0.01, 0.01). *)
Theorem particles_stay_bounded (g : Random) (cam : Cam) (es : list Event)
    (i : nat) (p : Particle) :
  unit_draws g ->
  particles (run es (exec init (constructor g cam))) !! i = Some p ->
  Vector3.lengthSq (p_position p) <= 20 * 20 /\
  Vector3.within (-0.01) 0.01 (velocity p).
Proof.
  intros Hu Hp.
  apply (run_bounds es (exec init (constructor g cam))) with (i := i); [| | exact Hp].
  - intros k. destruct (init_state g cam) as (_ & _ & _ & Hd & _). rewrite Hd. apply Hu.
  - apply init_bounds; [exact Hu | reflexivity].
Qed.

Lemma lengthSq_eqv (v w : Vector3.t) :
  Vector3.eqv v w -> Vector3.lengthSq v == Vector3.lengthSq w.
Proof.
  unfold Vector3.eqv, Vector3.lengthSq. intros (Hx & Hy & Hz). rewrite Hx, Hy, Hz. reflexivity.
Qed.

Lemma eqv_trans (u v w : Vector3.t) :
  Vector3.eqv u v -> Vector3.eqv v w -> Vector3.eqv u w.
Proof.
  unfold Vector3.eqv. intros (Hx & Hy & Hz) (Hx' & Hy' & Hz').
  rewrite Hx, Hy, Hz. repeat split; assumption.
Qed.

(** X21.  A particle at rest inside the boundary stays where it is for the whole
    session, whatever the other particles do and whatever is drawn. *)
Theorem resting_particle_stays (es : list Event) s (i : nat) (p : Particle) :
  particles s !! i = Some p ->
  Vector3.eqv (velocity p) Vector3.zero ->
  Vector3.lengthSq (p_position p) <= 20 * 20 ->
  exists p' : Particle,
    particles (run es s) !! i = Some p' /\
    Vector3.eqv (p_position p') (p_position p) /\
    velocity p' = velocity p.
Proof.
  intros Hp Hzero Hnear.
  assert (H0 : exists p' : Particle,
             particles s !! i = Some p' /\
             Vector3.eqv (p_position p') (p_position p) /\ velocity p' = velocity p).
  { exists p. split; [exact Hp |]. split; [| reflexivity]. repeat split; reflexivity. }
  clear Hp. revert s H0. induction es as [|e es IH]; intros s H0; [exact H0 |].
  rewrite run_cons. apply IH. destruct H0 as (q & Hq & Hqp & Hqv).
  destruct e as [w event | |]; cbn [dispatch].
  - destruct (onMouseMove_fields w event s) as ((_ & _ & Hps & _) & _).
    rewrite Hps. eauto.
  - destruct (onMouseClick_fields s) as ((_ & _ & Hps & _) & _).
    rewrite Hps. eauto.
  - rewrite animate_exec. cbn [particles].
    destruct (forEach_particle_lookup _ (random s) i q Hq) as (gi & _ & _ & Hl).
    assert (Hz : Vector3.eqv (velocity q) Vector3.zero) by (rewrite Hqv; exact Hzero).
    destruct (add_zero_lengthSq (p_position q) (velocity q) Hz) as [Heqv Hsq].
    exists (fst (animateParticle q gi)). split; [exact Hl |].
    rewrite animateParticle_keep.
    + cbn [fst p_position velocity]. split; [| exact Hqv].
      exact (eqv_trans _ _ _ Heqv Hqp).
    + apply length_gt_false. rewrite Hsq, (lengthSq_eqv _ _ Hqp). exact Hnear.
Qed.

(** *** Blocks over a session *)

Lemma init_children s :
  children (blockGroup (exec init s)) = children (blockGroup (exec createBlocks s)).
Proof.
  unfold init. rewrite !exec_seq.
  destruct (animate_setup (exec createParticles (exec createBlocks s))) as (_ & _ & -> & _).
  destruct (createParticles_fields (exec createBlocks s)) as (_ & _ & _ & _ & -> & _).
  reflexivity.
Qed.

Lemma fmap_lookup_back {B : Type} (f : Block -> B) (l l' : list Block) (i : nat) (b' : Block) :
  f <$> l' = f <$> l -> l' !! i = Some b' ->
  exists b : Block, l !! i = Some b /\ f b = f b'.
Proof.
  intros Hf Hb'.
  assert (H : (f <$> l) !! i = Some (f b')) by (rewrite <- Hf, list_lookup_fmap, Hb'; reflexivity).
  rewrite list_lookup_fmap in H. destruct (l !! i) as [b|]; [| discriminate].
  exists b. split; [reflexivity |]. simpl in H. congruence.
Qed.

Lemma dispatch_palette s (e : Event) :
  unit_draws (random s) -> colors s = palette ->
  palette_colours s -> palette_colours (dispatch s e).
Proof.
  intros Hu Hcols Hpal. destruct e as [w event | |]; cbn [dispatch].
  - destruct (onMouseMove_fields w event s) as (_ & _ & _ & _ & _ & Hc).
    intros i b' Hb'. destruct (fmap_lookup_back color _ _ i b' Hc Hb') as (b & Hb & <-).
    exact (Hpal i b Hb).
  - rewrite onMouseClick_exec.
    destruct (intersectObjects s) as [|hit rest]; [exact Hpal |].
    intros i b'. cbn [blockGroup children with_blockGroup].
    destruct (decide (object hit = i)) as [<- | Hne].
    + rewrite list_lookup_alter_eq.
      destruct (children (blockGroup s) !! object hit) as [b|]; [| discriminate].
      intros [= <-]. cbn [color set_color]. rewrite Hcols.
      destruct (Hu (cursor (random s))) as [H0 H1].
      apply (index_palette palette _ H0 H1). discriminate.
    + rewrite list_lookup_alter_ne by exact Hne. apply Hpal.
  - rewrite animate_exec. exact Hpal.
Qed.

Lemma run_palette (es : list Event) s :
  unit_draws (random s) -> colors s = palette ->
  palette_colours s -> palette_colours (run es s).
Proof.
  revert s. induction es as [|e es IH]; intros s Hu Hcols Hpal; [exact Hpal |].
  rewrite run_cons. destruct (dispatch_setup s e) as ((Hc & _) & Hd & _).
  apply IH; [| congruence | apply dispatch_palette; assumption].
  intros k. rewrite Hd. apply Hu.
Qed.

(** X13.  With draws in [0, 1), every block has one of the three palette colours
    at every moment after [init]: clicks recolour blocks, but never to a
    value outside the palette and never to [undefined]. *)
Theorem block_colours_stay_in_palette (g : Random) (cam : Cam) (es : list Event)
    (i : nat) (b : Block) :
  unit_draws g ->
  children (blockGroup (run es (exec init (constructor g cam)))) !! i = Some b ->
  color b = Some 0x1e90ff%Z \/ color b = Some 0x00ff7f%Z \/ color b = Some 0xffffff%Z.
Proof.
  intros Hu Hb.
  destruct (init_state g cam) as (_ & _ & Hcols & Hd & _).
  assert (Hpal : palette_colours (run es (exec init (constructor g cam)))).
  { apply run_palette; [intros k; rewrite Hd; apply Hu | exact Hcols |].
    intros j b0. rewrite init_children. intros Hb0.
    destruct (createBlocks_lookup (constructor g cam) j b0) as (n & _ & ->);
      [cbn [constructor blockGroup children length]; lia | exact Hb0 |].
    cbn [block_at color constructor colors random].
    destruct (Hu (7 + (9 * n + cursor g))%nat) as [H0 H1].
    apply (index_palette palette _ H0 H1). discriminate. }
  destruct (Hpal i b Hb) as (c & -> & Hc).
  apply palette_cases in Hc. destruct Hc as [-> | [-> | ->]]; auto.
Qed.

(** X14.  With draws in [0, 1), every block of the scene of [init] has, for the
    whole session, its size in [0.5, 1] and every coordinate of its position
    in [-9, 9): a centre in [-5, 5) plus an offset in [-4, 4) for the
    clustering radius 8 of the constructor. *)
Theorem blocks_stay_in_extent (g : Random) (cam : Cam) (es : list Event)
    (i : nat) (b : Block) :
  unit_draws g ->
  children (blockGroup (run es (exec init (constructor g cam)))) !! i = Some b ->
  (0.5 <= size b /\ size b <= 1) /\ Vector3.within (-9) 9 (position b).
Proof.
  intros Hu Hb.
  destruct (run_setup es (exec init (constructor g cam))) as (_ & _ & Hpos & Hsz & _).
  destruct (fmap_lookup_back position _ _ i b Hpos Hb) as (b0 & Hb0 & Hp0).
  destruct (fmap_lookup_back size _ _ i b Hsz Hb) as (b1 & Hb1 & Hs1).
  assert (b1 = b0) by congruence. subst b1. rewrite <- Hp0, <- Hs1. clear Hp0 Hs1 Hb1 Hb.
  rewrite init_children in Hb0.
  destruct (createBlocks_lookup (constructor g cam) i b0) as (n & _ & ->);
    [cbn [constructor blockGroup children length]; lia | exact Hb0 |].
  cbn [constructor random clusterRadius colors draws cursor].
  set (k := (9 * n + cursor g)%nat).
  pose proof (Hu (1 + k)%nat) as [? ?]. pose proof (Hu (2 + k)%nat) as [? ?].
  pose proof (Hu (3 + k)%nat) as [? ?]. pose proof (Hu (4 + k)%nat) as [? ?].
  pose proof (Hu (5 + k)%nat) as [? ?]. pose proof (Hu (6 + k)%nat) as [? ?].
  pose proof (Hu (8 + k)%nat) as [? ?].
  unfold Vector3.within, block_at, Vector3.add, clusterCenter_at, offset_at.
  cbn [position size Vector3.x Vector3.y Vector3.z].
  split; [apply round_below_one_range; lra |].
  repeat split; lra.
Qed.

End Session.

(** ** The further properties at sample inputs *)

Lemma sample_hits_are_children : hits_are_children sample_library.
Proof.
  intros s hit. cbn [intersectObjects sample_library]. unfold centre_hits_first.
  destruct (_ && _); [| intros H; apply elem_of_nil in H; contradiction].
  destruct (children (blockGroup s)) as [|b l];
    [intros H; apply elem_of_nil in H; contradiction |].
  intros H. apply list_elem_of_singleton in H. subst hit. simpl. lia.
Qed.

Lemma sample_scene_unit_scales : unit_scales sample_scene.
Proof. exact (proj1 (proj2 (proj2 (proj2 (proj2 (init_state eighths tt)))))). Qed.

Lemma pointer_in_square_witness :
  (-1 <= Vector2.x (mouse (exec (onMouseMove sample_window sample_move)
                                 (constructor eighths tt))) /\
   Vector2.x (mouse (exec (onMouseMove sample_window sample_move)
                          (constructor eighths tt))) <= 1) /\
  (-1 <= Vector2.y (mouse (exec (onMouseMove sample_window sample_move)
                                 (constructor eighths tt))) /\
   Vector2.y (mouse (exec (onMouseMove sample_window sample_move)
                          (constructor eighths tt))) <= 1).
Proof.
  apply (pointer_in_square sample_window sample_move (constructor eighths tt)).
  unfold inside_window, sample_window, sample_move.
  cbn [innerWidth innerHeight clientX clientY].
  split; [lra | split; [lra | split; split; lra]].
Defined.

Lemma pointer_axes_witness :
  (clientX sample_move < clientX centre_move ->
   Vector2.x (mouse (exec (onMouseMove sample_window sample_move) (constructor eighths tt))) <
   Vector2.x (mouse (exec (onMouseMove sample_window centre_move) (constructor eighths tt)))) /\
  (clientY sample_move < clientY centre_move ->
   Vector2.y (mouse (exec (onMouseMove sample_window centre_move) (constructor eighths tt))) <
   Vector2.y (mouse (exec (onMouseMove sample_window sample_move) (constructor eighths tt)))) /\
  (clientX sample_move * 2 == innerWidth sample_window ->
   Vector2.x (mouse (exec (onMouseMove sample_window sample_move) (constructor eighths tt)))
   == 0) /\
  (clientY sample_move * 2 == innerHeight sample_window ->
   Vector2.y (mouse (exec (onMouseMove sample_window sample_move) (constructor eighths tt)))
   == 0).
Proof.
  apply (pointer_axes sample_window sample_move centre_move
           (constructor eighths tt) (constructor eighths tt)).
  - vm_compute. reflexivity.
  - vm_compute. reflexivity.
Defined.

Lemma click_changes_one_colour_witness :
  (forall j : nat,
     j <> object centre_hit ->
     children (blockGroup (exec onMouseClick sample_scene)) !! j =
     children (blockGroup sample_scene) !! j) /\
  position <$> children (blockGroup (exec onMouseClick sample_scene)) =
    position <$> children (blockGroup sample_scene) /\
  size <$> children (blockGroup (exec onMouseClick sample_scene)) =
    size <$> children (blockGroup sample_scene) /\
  scale <$> children (blockGroup (exec onMouseClick sample_scene)) =
    scale <$> children (blockGroup sample_scene) /\
  lastIntersected (exec onMouseClick sample_scene) = lastIntersected sample_scene /\
  mouse (exec onMouseClick sample_scene) = mouse sample_scene /\
  particles (exec onMouseClick sample_scene) = particles sample_scene /\
  calls (exec onMouseClick sample_scene) = calls sample_scene /\
  cursor (random (exec onMouseClick sample_scene)) = S (cursor (random sample_scene)).
Proof.
  apply (click_changes_one_colour sample_scene centre_hit []).
  vm_compute. reflexivity.
Defined.

Lemma move_off_blocks_clears_hover_witness :
  lastIntersected
    (exec (onMouseMove sample_window sample_move)
       (run [MouseMove sample_window centre_move] sample_scene)) = None /\
  unit_scales
    (exec (onMouseMove sample_window sample_move)
       (run [MouseMove sample_window centre_move] sample_scene)).
Proof.
  refine (move_off_blocks_clears_hover sample_scene [MouseMove sample_window centre_move]
            sample_window sample_move sample_scene_unit_scales _).
  vm_compute. reflexivity.
Defined.

Lemma move_onto_block_enlarges_it_witness :
  lastIntersected (exec (onMouseMove sample_window centre_move) (run [] sample_scene)) =
    Some (object centre_hit) /\
  scale <$>
    children (blockGroup (exec (onMouseMove sample_window centre_move) (run [] sample_scene)))
      !! object centre_hit = Some (Vector3.mk 1.1 1.1 1.1) /\
  forall (j : nat) (b : Block),
    j <> object centre_hit ->
    children (blockGroup (exec (onMouseMove sample_window centre_move) (run [] sample_scene)))
      !! j = Some b ->
    scale b = Vector3.mk 1 1 1.
Proof.
  refine (move_onto_block_enlarges_it sample_scene [] sample_window centre_move
            centre_hit [] sample_scene_unit_scales _ _).
  - vm_compute. reflexivity.
  - vm_compute. lia.
Defined.

Lemma hover_target_is_a_block_witness :
  target_is_block (run busy_events (exec init (constructor eighths tt))).
Proof.
  apply (hover_target_is_a_block eighths tt busy_events).
  exact sample_hits_are_children.
Defined.


Lemma particles_stay_bounded_witness :
  Vector3.lengthSq (p_position later_particle) <= 20 * 20 /\
  Vector3.within (-0.01) 0.01 (velocity later_particle).
Proof.
  apply (particles_stay_bounded eighths tt busy_events 0 later_particle).
  - exact eighths_unit_draws.
  - vm_compute. reflexivity.
Defined.

Lemma resting_particle_stays_witness :
  exists p' : Particle,
    particles (run busy_events (particle_scene eighths [fast_particle; still_particle]))
      !! 1%nat = Some p' /\
    Vector3.eqv (p_position p') (p_position still_particle) /\
    velocity p' = velocity still_particle.
Proof.
  apply (resting_particle_stays busy_events
           (particle_scene eighths [fast_particle; still_particle]) 1 still_particle).
  - reflexivity.
  - split; [| split]; reflexivity.
  - vm_compute. discriminate.
Defined.

Lemma block_colours_stay_in_palette_witness :
  color later_block = Some 0x1e90ff%Z \/ color later_block = Some 0x00ff7f%Z \/
  color later_block = Some 0xffffff%Z.
Proof.
  apply (block_colours_stay_in_palette eighths tt busy_events 0 later_block).
  - exact eighths_unit_draws.
  - vm_compute. reflexivity.
Defined.

Lemma blocks_stay_in_extent_witness :
  (0.5 <= size later_block /\ size later_block <= 1) /\
  Vector3.within (-9) 9 (position later_block).
Proof.
  apply (blocks_stay_in_extent eighths tt busy_events 0 later_block).
  - exact eighths_unit_draws.
  - vm_compute. reflexivity.
Defined.

(** ** The unused cluster index *)

Section ClusterIndex.
Context {Cam : Type}.
Implicit Types s : State Cam.

Lemma block_at_ext (d d' : nat -> Q) (k : nat) (R : Q) (cols : list Z) :
  (forall m : nat, (1 <= m <= 8)%nat -> d' (m + k)%nat = d (m + k)%nat) ->
  block_at d' k R cols = block_at d k R cols.
Proof.
  intros H. unfold block_at, clusterCenter_at, offset_at.
  rewrite (H 1%nat), (H 2%nat), (H 3%nat), (H 4%nat), (H 5%nat), (H 6%nat),
    (H 7%nat), (H 8%nat) by lia.
  reflexivity.
Qed.

(** X3.  The first draw of every pass of [createBlocks], the one behind
    [clusterIndex], has no influence on the blocks: two random sources that
    differ in these draws only produce the same blocks. *)
Theorem cluster_index_is_unused s (d' : nat -> Q) :
  (forall k : nat,
     (forall j : nat, k <> (9 * j + cursor (random s))%nat) ->
     d' k = draws (random s) k) ->
  children (blockGroup (exec createBlocks (with_random (mkRandom d' (cursor (random s))) s))) =
  children (blockGroup (exec createBlocks s)).
Proof.
  intros Hd. rewrite !createBlocks_exec, !createBlocks_loop_exec.
  cbn [blockGroup children with_blockGroup with_random random draws cursor
       blockCount clusterRadius colors].
  f_equal. apply list_fmap_ext. intros i n _.
  apply block_at_ext. intros m Hm. apply Hd. intros j. lia.
Qed.

End ClusterIndex.

Lemma cluster_index_is_unused_witness :
  children (blockGroup (exec createBlocks
     (with_random (mkRandom (draws eighths_zeroed) (cursor (random (constructor eighths tt))))
        (constructor eighths tt)))) =
  children (blockGroup (exec createBlocks (constructor eighths tt))).
Proof.
  apply (cluster_index_is_unused (constructor eighths tt) (draws eighths_zeroed)).
  intros k Hk. cbn [constructor random cursor] in Hk. cbn [eighths_zeroed draws].
  destruct (Nat.eqb_spec (k mod 9) 0) as [E | E]; [| reflexivity].
  exfalso. apply (Hk (k / 9)%nat).
  pose proof (Nat.div_mod_eq k 9). cbn [eighths cursor]. lia.
Defined.

(** ** The draws of a frame *)

Lemma forEach_particle_cursor (ps : list Particle) (g : Random) :
  cursor (snd (forEach_particle ps g)) =
  (6 * length (List.filter crosses ps) + cursor g)%nat.
Proof.
  revert g. induction ps as [|p rest IH]; intros g; [reflexivity |].
  cbn [forEach_particle List.filter]. unfold crosses at 1. cbn [drift p_position].
  destruct (Vector3.length_gt (Vector3.add (p_position p) (velocity p)) 20) eqn:E.
  - rewrite animateParticle_reseed by exact E.
    specialize (IH (mkRandom (draws g) (6 + cursor g))).
    destruct (forEach_particle rest _) as [rest' g'']. cbn [snd] in *.
    rewrite IH. cbn [cursor length]. lia.
  - rewrite animateParticle_keep by exact E.
    specialize (IH g). destruct (forEach_particle rest g) as [rest' g'']. cbn [snd] in *.
    exact IH.
Qed.

(** X19.  The per-frame particle update draws exactly six random numbers for every
    particle that crosses the boundary in this frame, and none for the
    others. *)
Theorem frame_draws_six_per_crossing {Cam : Type} (s : State Cam) :
  cursor (random (exec animateParticles s)) =
  (6 * length (List.filter crosses (particles s)) + cursor (random s))%nat.
Proof.
  destruct (animateParticles_exec s) as [_ ->]. apply forEach_particle_cursor.
Qed.
